(** * anime-scraper: metadata extraction and deterministic grouping

    A shallow embedding of [anime_scraper/models.py], [anime_scraper/metadata.py],
    [anime_scraper/utils.py] and [anime_scraper/grouper.py].

    Conventions of the embedding.
    - A Python [str] is a [string] whose characters are the code points 0..255
      (Latin-1).  Character classes ([\s], [\d], [\w], case folding) are the
      interpreter's Unicode classes restricted to that range.
    - A Python [int] is a [Z]; [int(str)] is modelled without the interpreter's
      optional guard on the length of decimal strings.
    - Regular expressions are syntax trees run by a backtracking matcher with
      the priorities of Python's [re]: leftmost start, alternatives left to
      right, greedy repetition.
    - [console.print] only writes to the terminal and is left out. *)

From Stdlib Require Import List Ascii String ZArith NArith Bool Arith Lia.
From Stdlib Require Import Permutation Sorted DecimalString.
From Stdlib Require DecimalPos.
Import ListNotations.

Local Open Scope list_scope.
Local Open Scope string_scope.

Set Implicit Arguments.

(* ------------------------------------------------------------------ *)
(** ** Characters *)

Module Chr.

Definition code (c : ascii) : N := N_of_ascii c.

Definition between (lo hi : N) (c : ascii) : bool :=
  ((lo <=? code c) && (code c <=? hi))%N.

Definition is_digit (c : ascii) : bool := between 48 57 c.

Definition is_upper_az (c : ascii) : bool := between 65 90 c.
Definition is_lower_az (c : ascii) : bool := between 97 122 c.

(** [str.isspace] / regex [\s] / [str.strip] on code points below 256. *)
Definition is_space (c : ascii) : bool :=
  between 9 13 c || between 28 32 c
  || (code c =? 133)%N || (code c =? 160)%N.

(** The blanks [int()] skips around a number. *)
Definition is_int_space (c : ascii) : bool :=
  between 9 13 c || (code c =? 32)%N
  || (code c =? 133)%N || (code c =? 160)%N.

(** Regex [\w] on code points below 256: alphanumeric or underscore. *)
Definition is_word (c : ascii) : bool :=
  is_digit c || is_upper_az c || is_lower_az c || (code c =? 95)%N
  || (code c =? 170)%N || (code c =? 178)%N || (code c =? 179)%N
  || (code c =? 181)%N || (code c =? 185)%N || (code c =? 186)%N
  || between 188 190 c || between 192 214 c || between 216 246 c
  || between 248 255 c.

(** [str.lower] on one character. *)
Definition lower (c : ascii) : ascii :=
  if is_upper_az c || between 192 214 c || between 216 222 c
  then ascii_of_N (code c + 32) else c.

(** [str.upper] on the letters a-z; other characters are kept (the only
    caller looks the result up in a table of [I], [V], [X]). *)
Definition upper (c : ascii) : ascii :=
  if is_lower_az c then ascii_of_N (code c - 32) else c.

Definition eqb_icase (a b : ascii) : bool := Ascii.eqb (lower a) (lower b).

(** [str.isdigit] on one character below 256: the decimal digits and the
    superscripts two, three and one. *)
Definition isdigit (c : ascii) : bool :=
  is_digit c || (code c =? 178)%N || (code c =? 179)%N || (code c =? 185)%N.

End Chr.

(* ------------------------------------------------------------------ *)
(** ** Strings *)

Module Str.

Fixpoint map (f : ascii -> ascii) (s : string) : string :=
  match s with
  | EmptyString => EmptyString
  | String c s' => String (f c) (map f s')
  end.

Definition lower (s : string) : string := map Chr.lower s.
Definition upper (s : string) : string := map Chr.upper s.

Fixpoint take (n : nat) (s : string) : string :=
  match n, s with
  | S n', String c s' => String c (take n' s')
  | _, _ => EmptyString
  end.

(** The part of [s] in front of its suffix [rest]. *)
Definition consumed (s rest : string) : string :=
  take (String.length s - String.length rest) s.

Fixpoint lstrip_by (p : ascii -> bool) (s : string) : string :=
  match s with
  | String c s' => if p c then lstrip_by p s' else s
  | EmptyString => EmptyString
  end.

(** Drops the trailing characters that satisfy [p]. *)
Fixpoint rstrip_by (p : ascii -> bool) (s : string) : string :=
  match s with
  | EmptyString => EmptyString
  | String c s' =>
      match rstrip_by p s' with
      | EmptyString => if p c then EmptyString else String c EmptyString
      | r => String c r
      end
  end.

(** [s.strip()] *)
Definition strip (s : string) : string :=
  rstrip_by Chr.is_space (lstrip_by Chr.is_space s).

(** Does [s] start with [p]?  Returns what follows. *)
Fixpoint drop_prefix (p s : string) : option string :=
  match p, s with
  | EmptyString, _ => Some s
  | String a p', String b s' =>
      if Ascii.eqb a b then drop_prefix p' s' else None
  | String _ _, EmptyString => None
  end.

(** [needle in s] *)
Fixpoint contains (needle s : string) : bool :=
  match drop_prefix needle s with
  | Some _ => true
  | None =>
      match s with
      | EmptyString => false
      | String _ s' => contains needle s'
      end
  end.

(** [s.replace(old, "")] for a non-empty [old]: occurrences are removed
    left to right without overlap.  [skip] counts the characters of the
    occurrence being removed that are still ahead. *)
Fixpoint remove_go (old s : string) (skip : nat) : string :=
  match s with
  | EmptyString => EmptyString
  | String c s' =>
      match skip with
      | S n => remove_go old s' n
      | O =>
          match drop_prefix old s with
          | Some _ => remove_go old s' (String.length old - 1)
          | None => String c (remove_go old s' 0)
          end
      end
  end.

Definition remove (old s : string) : string := remove_go old s 0.

(** [sep.join(parts)] *)
Fixpoint join (sep : string) (parts : list string) : string :=
  match parts with
  | [] => EmptyString
  | [p] => p
  | p :: ps => p ++ sep ++ join sep ps
  end.

(** Python truthiness of a string. *)
Definition truthy (s : string) : bool :=
  match s with EmptyString => false | _ => true end.

(** [a or b] on strings. *)
Definition or_else (a b : string) : string := if truthy a then a else b.

(** Every character of [s] satisfies [p]. *)
Fixpoint all (p : ascii -> bool) (s : string) : bool :=
  match s with
  | EmptyString => true
  | String c s' => p c && all p s'
  end.

(** [s.isdigit()]: at least one character, all of them digits. *)
Definition isdigit (s : string) : bool := truthy s && all Chr.isdigit s.

(** [s.replace(old, new)] for a non-empty [old]: occurrences are replaced
    left to right without overlap.  [skip] counts the characters of the
    occurrence being replaced that are still ahead. *)
Fixpoint replace_go (old new s : string) (skip : nat) : string :=
  match s with
  | EmptyString => EmptyString
  | String c s' =>
      match skip with
      | S n => replace_go old new s' n
      | O =>
          match drop_prefix old s with
          | Some _ => new ++ replace_go old new s' (String.length old - 1)
          | None => String c (replace_go old new s' 0)
          end
      end
  end.

Definition replace (old new s : string) : string := replace_go old new s 0.

(** [s[:n]]: the first [n] characters, or for a negative [n] all but the
    last [-n]. *)
Definition slice_to (n : Z) (s : string) : string :=
  if (n <? 0)%Z then take (String.length s - Z.to_nat (- n)) s
  else take (Z.to_nat n) s.

End Str.

(* ------------------------------------------------------------------ *)
(** ** Integers and their decimal text *)

Module PyInt.

(** [f"{n}"] / [str(n)] *)
Definition to_str (n : Z) : string := NilZero.string_of_int (Z.to_int n).

Definition digit_val (c : ascii) : Z := Z.of_N (Chr.code c) - 48.

(** Digits with single underscores between them; [acc] is the value so
    far, [after_digit] tells whether the previous character was a digit. *)
Fixpoint digits_go (s : string) (acc : Z) (after_digit : bool) : option Z :=
  match s with
  | EmptyString => if after_digit then Some acc else None
  | String c s' =>
      if Chr.is_digit c then digits_go s' (10 * acc + digit_val c) true
      else if (Chr.code c =? 95)%N && after_digit then digits_go s' acc false
      else None
  end.

(** [int(s)]: [None] stands for [ValueError]. *)
Definition of_str (s : string) : option Z :=
  let t := Str.rstrip_by Chr.is_int_space (Str.lstrip_by Chr.is_int_space s) in
  match t with
  | String "-" t' => option_map Z.opp (digits_go t' 0 false)
  | String "+" t' => digits_go t' 0 false
  | _ => digits_go t 0 false
  end.

End PyInt.

(* ------------------------------------------------------------------ *)
(** ** Regular expressions ([re]) *)

Module Re.

(** An item of a bracketed set. *)
Inductive citem : Type :=
| IChr (c : ascii)
| IRange (lo hi : ascii)
| ISpace
| IDigit.

(** A one-character class: a (possibly negated) set, or the dot. *)
Inductive cclass : Type :=
| CSet (negated : bool) (items : list citem)
| CDot.

Inductive regex : Type :=
| Eps
| Lit (s : string)
| Cls (c : cclass)
| Seq (r1 r2 : regex)
| Alt (r1 r2 : regex)
| Opt (r : regex)
| Rep (c : cclass) (lo : nat) (hi : option nat)
| Grp (n : nat) (r : regex)
| Bol
| Eol
| Wb.

Definition item_mem (x : ascii) (i : citem) : bool :=
  match i with
  | IChr c => Ascii.eqb x c
  | IRange lo hi => Chr.between (Chr.code lo) (Chr.code hi) x
  | ISpace => Chr.is_space x
  | IDigit => Chr.is_digit x
  end.

(** Under [IGNORECASE] a set also accepts the other case of its letters. *)
Definition items_mem (ic : bool) (items : list citem) (x : ascii) : bool :=
  existsb (item_mem x) items
  || (ic && (existsb (item_mem (Chr.lower x)) items
             || existsb (item_mem (Chr.upper x)) items)).

Definition cls_mem (ic : bool) (c : cclass) (x : ascii) : bool :=
  match c with
  | CSet neg items => xorb neg (items_mem ic items x)
  | CDot => negb (Ascii.eqb x "010")
  end.

Definition chr_eq (ic : bool) (a b : ascii) : bool :=
  if ic then Chr.eqb_icase a b else Ascii.eqb a b.

(** Matches the literal [l] at the head of [s]; returns the last character
    read and what follows. *)
Fixpoint lit_prefix (ic : bool) (l : string) (prev : option ascii) (s : string)
  : option (option ascii * string) :=
  match l, s with
  | EmptyString, _ => Some (prev, s)
  | String a l', String b s' =>
      if chr_eq ic a b then lit_prefix ic l' (Some b) s' else None
  | String _ _, EmptyString => None
  end.

Definition caps : Type := list (nat * string).

Fixpoint lookup (n : nat) (cs : caps) : option string :=
  match cs with
  | [] => None
  | (m, s) :: cs' => if Nat.eqb m n then Some s else lookup n cs'
  end.

Definition is_word_opt (c : option ascii) : bool :=
  match c with Some x => Chr.is_word x | None => false end.

Definition head_opt (s : string) : option ascii :=
  match s with String x _ => Some x | EmptyString => None end.

(** [$] without [MULTILINE]: the end, or just before a final newline. *)
Definition at_eol (s : string) : bool :=
  match s with
  | EmptyString => true
  | String c EmptyString => Ascii.eqb c "010"
  | _ => false
  end.

Definition first_some {A} (a : option A) (b : option A) : option A :=
  match a with Some _ => a | None => b end.

Section Matcher.

Variable A : Type.
Variable ic : bool.

(** Greedy repetition [c{lo,hi}] followed by the continuation [k]. *)
Fixpoint rep_match (c : cclass) (lo : nat) (hi : option nat)
    (prev : option ascii) (s : string)
    (k : option ascii -> string -> option A) {struct s} : option A :=
  let stop := match lo with O => k prev s | S _ => None end in
  match hi with
  | Some O => stop
  | _ =>
      match s with
      | String x s' =>
          if cls_mem ic c x
          then first_some
                 (rep_match c (pred lo) (option_map pred hi) (Some x) s' k)
                 stop
          else stop
      | EmptyString => stop
      end
  end.

(** [rx_match r prev s cs k]: match [r] at the head of [s] ([prev] is the
    character in front of [s], [None] at the start of the text), then run
    [k] on what is left; on failure of [k] the next choice of [r] is tried. *)
Fixpoint rx_match (r : regex) (prev : option ascii) (s : string) (cs : caps)
    (k : option ascii -> string -> caps -> option A) {struct r} : option A :=
  match r with
  | Eps => k prev s cs
  | Lit l =>
      match lit_prefix ic l prev s with
      | Some (prev', s') => k prev' s' cs
      | None => None
      end
  | Cls c =>
      match s with
      | String x s' => if cls_mem ic c x then k (Some x) s' cs else None
      | EmptyString => None
      end
  | Seq r1 r2 =>
      rx_match r1 prev s cs (fun p' s' cs' => rx_match r2 p' s' cs' k)
  | Alt r1 r2 =>
      first_some (rx_match r1 prev s cs k) (rx_match r2 prev s cs k)
  | Opt r1 =>
      first_some (rx_match r1 prev s cs k) (k prev s cs)
  | Rep c lo hi =>
      rep_match c lo hi prev s (fun p' s' => k p' s' cs)
  | Grp n r1 =>
      rx_match r1 prev s cs
        (fun p' s' cs' => k p' s' ((n, Str.consumed s s') :: cs'))
  | Bol => match prev with None => k prev s cs | Some _ => None end
  | Eol => if at_eol s then k prev s cs else None
  | Wb =>
      if xorb (is_word_opt prev) (is_word_opt (head_opt s))
      then k prev s cs else None
  end.

End Matcher.

(** A compiled pattern: the [IGNORECASE] flag and the expression. *)
Record pattern : Type := Pattern { icase : bool; rx : regex }.

(** A match object: the text in front of the match, the matched text, the
    text behind it, and the groups that took part. *)
Record rmatch : Type := RMatch {
  m_before : string;
  m_text : string;
  m_after : string;
  m_groups : caps
}.

(** [m.group(n)]; [None] when the group did not take part. *)
Definition group (m : rmatch) (n : nat) : option string :=
  lookup n (m_groups m).

(** One attempt, anchored at the head of [s]. *)
Definition match_here (p : pattern) (prev : option ascii) (s : string)
  : option (string * caps) :=
  rx_match (icase p) (rx p) prev s []
    (fun _ s' cs => Some (s', cs)).

Fixpoint search_from (p : pattern) (prev : option ascii) (s : string)
  : option rmatch :=
  match match_here p prev s with
  | Some (rest, cs) => Some (RMatch EmptyString (Str.consumed s rest) rest cs)
  | None =>
      match s with
      | EmptyString => None
      | String x s' =>
          match search_from p (Some x) s' with
          | Some m => Some (RMatch (String x (m_before m)) (m_text m)
                              (m_after m) (m_groups m))
          | None => None
          end
      end
  end.

(** [p.search(s)] *)
Definition search (p : pattern) (s : string) : option rmatch :=
  search_from p None s.

(** [re.sub(p, "", s)]: every match, found left to right without overlap,
    is deleted.  [skip] counts the characters of the current match that are
    still ahead.  A position where the pattern matches the empty text is
    passed over like one where it does not match; none of the patterns
    below can match the empty text. *)
Fixpoint delete_go (p : pattern) (prev : option ascii) (s : string)
    (skip : nat) : string :=
  match s with
  | EmptyString => EmptyString
  | String x s' =>
      match skip with
      | S n => delete_go p (Some x) s' n
      | O =>
          match match_here p prev s with
          | Some (rest, _) =>
              match String.length s - String.length rest with
              | O => String x (delete_go p (Some x) s' 0)
              | S n => delete_go p (Some x) s' n
              end
          | None => String x (delete_go p (Some x) s' 0)
          end
      end
  end.

Definition delete_all (p : pattern) (s : string) : string :=
  delete_go p None s 0.

Module Syntax.
Declare Scope re_scope.
Delimit Scope re_scope with re.
Bind Scope re_scope with regex.
Infix "+>" := Seq (at level 40, left associativity) : re_scope.
Infix "<|>" := Alt (at level 50, left associativity) : re_scope.
Definition star (c : cclass) : regex := Rep c 0 None.
Definition plus (c : cclass) : regex := Rep c 1 None.
Definition upto (c : cclass) (lo hi : nat) : regex := Rep c lo (Some hi).
Definition space : cclass := CSet false [ISpace].
Definition digit : cclass := CSet false [IDigit].
Definition one_of (cs : list ascii) : cclass := CSet false (List.map IChr cs).
Definition none_of (cs : list ascii) : cclass := CSet true (List.map IChr cs).
End Syntax.

End Re.

(* ------------------------------------------------------------------ *)
(** ** models.py *)

Record TorrentMetadata : Type := mkTorrentMetadata {
  anime_name : string;
  season : string;
  episode : string;
  quality : string;
  audio_language : string;
  subtitle_language : string;
  release_group : string;
  description : string
}.

(** [TorrentMetadata(anime_name=name)]: the other fields at their defaults. *)
Definition default_metadata (name : string) : TorrentMetadata :=
  {| anime_name := name;
     season := "Season 1";
     episode := "";
     quality := "Unknown";
     audio_language := "Unknown";
     subtitle_language := "Unknown";
     release_group := "Unknown";
     description := "" |}.

Definition group_key (m : TorrentMetadata) : string :=
  release_group m ++ "|" ++ anime_name m ++ "|" ++ season m ++ "|"
  ++ audio_language m ++ "|" ++ subtitle_language m ++ "|" ++ quality m.

Definition known (s : string) : bool :=
  Str.truthy s && negb (String.eqb s "Unknown").

Definition group_name (m : TorrentMetadata) : string :=
  let parts := [release_group m; anime_name m; season m] in
  let parts :=
    if known (audio_language m)
    then (parts ++ [("DUB " ++ audio_language m)%string])%list else parts in
  let parts :=
    if known (subtitle_language m)
    then (parts ++ [("SUB " ++ subtitle_language m)%string])%list else parts in
  let parts :=
    if known (quality m)
    then (parts ++ [("QUALITY " ++ quality m)%string])%list else parts in
  Str.join " - " parts.

Record Torrent : Type := mkTorrent {
  id : string;
  name : string;
  magnet : string;
  torrent_url : string;
  size : string;
  date : string;
  seeders : Z;
  leechers : Z;
  downloads : Z;
  category : string;
  submitter : string;
  metadata : option TorrentMetadata
}.

Definition set_metadata (t : Torrent) (m : TorrentMetadata) : Torrent :=
  {| id := id t; name := name t; magnet := magnet t;
     torrent_url := torrent_url t; size := size t; date := date t;
     seeders := seeders t; leechers := leechers t; downloads := downloads t;
     category := category t; submitter := submitter t;
     metadata := Some m |}.

Record TorrentGroup : Type := mkTorrentGroup {
  g_name : string;
  g_description : string;
  torrents : list Torrent;
  episode_range : string;
  g_quality : string;
  is_dubbed : bool
}.

(** [sum(t.seeders for t in self.torrents)] *)
Definition total_seeders (g : TorrentGroup) : Z :=
  fold_left Z.add (map seeders (torrents g)) 0%Z.

(* ------------------------------------------------------------------ *)
(** ** utils.py *)

Definition DUB_KEYWORDS : list string :=
  ["dub"; "dubbed"; "dual audio"; "dual"; "english dub"].

Definition contains_dub_keywords (nm : string) : bool :=
  let name_lower := Str.lower nm in
  existsb (fun kw => Str.contains kw name_lower) DUB_KEYWORDS.

(* ------------------------------------------------------------------ *)
(** ** metadata.py: the pattern table *)

Module PATTERNS.
Import Re Re.Syntax.
Local Open Scope re_scope.

(** [^\[([^\]]+)\]|^\(([^)]+)\)] *)
Definition release_group_start : pattern :=
  Pattern false
    (Bol +> Lit "[" +> Grp 1 (plus (none_of ["]"%char])) +> Lit "]"
     <|> Bol +> Lit "(" +> Grp 2 (plus (none_of [")"%char])) +> Lit ")").

Definition alnum : cclass :=
  CSet false [IRange "A" "Z"; IRange "a" "z"; IRange "0" "9"].

(** [-([A-Za-z0-9]+)(?:\.[a-z]{2,4})?$] *)
Definition release_group_end : pattern :=
  Pattern false
    (Lit "-" +> Grp 1 (plus alnum)
     +> Opt (Lit "." +> upto (CSet false [IRange "a" "z"]) 2 4) +> Eol).

(** [(?:S|Season\s?)] *)
Definition season_word : regex :=
  Lit "S" <|> Lit "Season" +> Opt (Cls space).

(** [(?:S|Season\s?)(\d+)], IGNORECASE *)
Definition season : pattern :=
  Pattern true (season_word +> Grp 1 (plus digit)).

(** [Part\s+(\d+)], IGNORECASE *)
Definition season_part : pattern :=
  Pattern true (Lit "Part" +> plus space +> Grp 1 (plus digit)).

(** [Cour\s+(\d+)], IGNORECASE *)
Definition season_cour : pattern :=
  Pattern true (Lit "Cour" +> plus space +> Grp 1 (plus digit)).

(** [(?:st|nd|rd|th)] *)
Definition ordinal_suffix : regex :=
  Lit "st" <|> Lit "nd" <|> Lit "rd" <|> Lit "th".

(** [(\d+)(?:st|nd|rd|th)\s+Season], IGNORECASE *)
Definition season_ordinal_num : pattern :=
  Pattern true
    (Grp 1 (plus digit) +> ordinal_suffix +> plus space +> Lit "Season").

(** [First|Second|...|Tenth] *)
Definition ordinal_words : regex :=
  Lit "First" <|> Lit "Second" <|> Lit "Third" <|> Lit "Fourth"
  <|> Lit "Fifth" <|> Lit "Sixth" <|> Lit "Seventh" <|> Lit "Eighth"
  <|> Lit "Ninth" <|> Lit "Tenth".

(** [(First|...|Tenth)\s+Season], IGNORECASE *)
Definition season_ordinal_word : pattern :=
  Pattern true (Grp 1 ordinal_words +> plus space +> Lit "Season").

Definition roman : cclass := one_of ["I"; "V"; "X"]%char.

(** [Season\s+([IVX]+)\b], IGNORECASE *)
Definition season_roman : pattern :=
  Pattern true (Lit "Season" +> plus space +> Grp 1 (plus roman) +> Wb).

(** [(?:E|Ep\.?\s?|Episode\s?)] *)
Definition episode_word : regex :=
  Lit "E" <|> Lit "Ep" +> Opt (Lit ".") +> Opt (Cls space)
  <|> Lit "Episode" +> Opt (Cls space).

(** [(?:E|Ep\.?\s?|Episode\s?)(\d+)|[\s\-]\s?(\d{2,3})(?:\s|$|\[|\()],
    IGNORECASE *)
Definition episode : pattern :=
  Pattern true
    (episode_word +> Grp 1 (plus digit)
     <|> Cls (CSet false [ISpace; IChr "-"]) +> Opt (Cls space)
         +> Grp 2 (upto digit 2 3)
         +> (Cls space <|> Eol <|> Lit "[" <|> Lit "(")).

(** [(4K|2160p|1080p|720p|480p|360p|FHD|HD|1920x1080|1280x720|SD)],
    IGNORECASE *)
Definition quality : pattern :=
  Pattern true
    (Grp 1 (Lit "4K" <|> Lit "2160p" <|> Lit "1080p" <|> Lit "720p"
            <|> Lit "480p" <|> Lit "360p" <|> Lit "FHD" <|> Lit "HD"
            <|> Lit "1920x1080" <|> Lit "1280x720" <|> Lit "SD")).

(** [(English\s*Dub|Eng\s*Dub|Dubbed|Dual\s*Audio|\bDUAL\b|\bDub\b)],
    IGNORECASE *)
Definition audio_english : pattern :=
  Pattern true
    (Grp 1 (Lit "English" +> star space +> Lit "Dub"
            <|> Lit "Eng" +> star space +> Lit "Dub"
            <|> Lit "Dubbed"
            <|> Lit "Dual" +> star space +> Lit "Audio"
            <|> Wb +> Lit "DUAL" +> Wb
            <|> Wb +> Lit "Dub" +> Wb)).

(** [(Japanese|JPN|Raw|\bJap\b)], IGNORECASE *)
Definition audio_japanese : pattern :=
  Pattern true
    (Grp 1 (Lit "Japanese" <|> Lit "JPN" <|> Lit "Raw"
            <|> Wb +> Lit "Jap" +> Wb)).

(** [(English\s*Sub|Eng\s*Sub|Subbed|\bSub\b|\[Eng\]|English)], IGNORECASE *)
Definition sub_english : pattern :=
  Pattern true
    (Grp 1 (Lit "English" +> star space +> Lit "Sub"
            <|> Lit "Eng" +> star space +> Lit "Sub"
            <|> Lit "Subbed"
            <|> Wb +> Lit "Sub" +> Wb
            <|> Lit "[Eng]"
            <|> Lit "English")).

(** [(Multi-?Sub|MultiSub)], IGNORECASE *)
Definition sub_multi : pattern :=
  Pattern true
    (Grp 1 (Lit "Multi" +> Opt (Lit "-") +> Lit "Sub" <|> Lit "MultiSub")).

End PATTERNS.

(* ------------------------------------------------------------------ *)
(** ** metadata.py: the extractors *)

(** The text of a group; a group that did not take part has none. *)
Definition text (g : option string) : string :=
  match g with Some s => s | None => EmptyString end.

(** [a or b] on two groups of a match. *)
Definition group_or (a b : option string) : option string :=
  match a with
  | Some (String _ _) => a
  | _ => b
  end.

(** [int(g)] for a group [g] that is a run of decimal digits. *)
Definition int_digits (g : option string) : Z :=
  match PyInt.digits_go (text g) 0 false with
  | Some n => n
  | None => 0%Z
  end.

Definition extract_release_group (title : string) : string :=
  match Re.search PATTERNS.release_group_start title with
  | Some m => text (group_or (Re.group m 1) (Re.group m 2))
  | None =>
      match Re.search PATTERNS.release_group_end title with
      | Some m => text (Re.group m 1)
      | None => "Unknown"
      end
  end.

Definition ORDINAL_WORDS : list (string * Z) :=
  [("first", 1); ("second", 2); ("third", 3); ("fourth", 4); ("fifth", 5);
   ("sixth", 6); ("seventh", 7); ("eighth", 8); ("ninth", 9);
   ("tenth", 10)]%Z.

(** [d.get(k, default)] on a dictionary kept as a list of bindings. *)
Fixpoint dict_get {V : Type} (d : list (string * V)) (k : string) (dflt : V)
  : V :=
  match d with
  | [] => dflt
  | (k', v) :: d' => if String.eqb k' k then v else dict_get d' k dflt
  end.

Definition _parse_ordinal_word (word : string) : Z :=
  dict_get ORDINAL_WORDS (Str.lower word) 1%Z.

Definition roman_values : list (string * Z) :=
  [("I", 1); ("V", 5); ("X", 10)]%Z.

(** The loop body of [_parse_roman_numeral]; the state is
    [(result, prev_value)]. *)
Definition roman_step (st : Z * Z) (char : ascii) : Z * Z :=
  let '(result, prev_value) := st in
  let value := dict_get roman_values (String char EmptyString) 0%Z in
  if (value <? prev_value)%Z
  then ((result - value)%Z, value)
  else ((result + value)%Z, value).

Definition _parse_roman_numeral (numeral : string) : Z :=
  let chars := List.rev (list_ascii_of_string (Str.upper numeral)) in
  let result := fst (fold_left roman_step chars (0, 0)%Z) in
  if (result >? 0)%Z then result else 1%Z.

Definition _extract_season_number (txt : string) : option Z :=
  match Re.search PATTERNS.season txt with
  | Some m => Some (int_digits (Re.group m 1))
  | None =>
  match Re.search PATTERNS.season_ordinal_num txt with
  | Some m => Some (int_digits (Re.group m 1))
  | None =>
  match Re.search PATTERNS.season_ordinal_word txt with
  | Some m => Some (_parse_ordinal_word (text (Re.group m 1)))
  | None =>
  match Re.search PATTERNS.season_roman txt with
  | Some m => Some (_parse_roman_numeral (text (Re.group m 1)))
  | None =>
  match Re.search PATTERNS.season_part txt with
  | Some m => Some (int_digits (Re.group m 1))
  | None =>
  match Re.search PATTERNS.season_cour txt with
  | Some m => Some (int_digits (Re.group m 1))
  | None => None
  end end end end end end.

Definition extract_season (title descr : string) : string :=
  match _extract_season_number title with
  | Some season_num => "Season " ++ PyInt.to_str season_num
  | None =>
      match _extract_season_number descr with
      | Some season_num => "Season " ++ PyInt.to_str season_num
      | None => "Season 1"
      end
  end.

Definition extract_episode (title : string) : string :=
  match Re.search PATTERNS.episode title with
  | Some m =>
      let ep := group_or (Re.group m 1) (Re.group m 2) in
      "Episode " ++ PyInt.to_str (int_digits ep)
  | None => ""
  end.

Definition extract_quality (title descr : string) : string :=
  match Re.search PATTERNS.quality title with
  | Some m => text (Re.group m 1)
  | None =>
      match Re.search PATTERNS.quality descr with
      | Some m => text (Re.group m 1)
      | None => "Unknown"
      end
  end.

Definition found (m : option Re.rmatch) : bool :=
  match m with Some _ => true | None => false end.

Definition extract_audio_language (title descr categ : string) : string :=
  let combined := title ++ " " ++ descr in
  if found (Re.search PATTERNS.audio_english combined) then "English"
  else if found (Re.search PATTERNS.audio_japanese combined) then "Japanese"
  else if Str.contains "Raw" categ then "Japanese"
  else "Japanese".

Definition extract_subtitle_language (title descr categ : string) : string :=
  let combined := title ++ " " ++ descr in
  if found (Re.search PATTERNS.sub_multi combined) then "Multi"
  else if found (Re.search PATTERNS.sub_english combined) then "English"
  else if Str.contains "English-translated" categ then "English"
  else if Str.contains "Raw" categ then "None"
  else "Unknown".

(** The expressions [extract_anime_name] passes to [re.sub]. *)
Module STRIP.
Import Re Re.Syntax.
Local Open Scope re_scope.

Definition rest : regex := star CDot.

(** [\s*(?:S|Season\s?)\d+.*], IGNORECASE *)
Definition season : pattern :=
  Pattern true (star space +> PATTERNS.season_word +> plus digit +> rest).

(** [\s*\d+(?:st|nd|rd|th)\s+Season.*], IGNORECASE *)
Definition ordinal_num : pattern :=
  Pattern true
    (star space +> plus digit +> PATTERNS.ordinal_suffix +> plus space
     +> Lit "Season" +> rest).

(** [\s*(?:First|...|Tenth)\s+Season.*], IGNORECASE *)
Definition ordinal_word : pattern :=
  Pattern true
    (star space +> PATTERNS.ordinal_words +> plus space +> Lit "Season"
     +> rest).

(** [\s*Season\s+[IVX]+\b.*], IGNORECASE *)
Definition roman : pattern :=
  Pattern true
    (star space +> Lit "Season" +> plus space +> plus PATTERNS.roman +> Wb
     +> rest).

(** [\s*Part\s+\d+.*], IGNORECASE *)
Definition part : pattern :=
  Pattern true (star space +> Lit "Part" +> plus space +> plus digit +> rest).

(** [\s*Cour\s+\d+.*], IGNORECASE *)
Definition cour : pattern :=
  Pattern true (star space +> Lit "Cour" +> plus space +> plus digit +> rest).

(** [\s*(?:E|Ep\.?\s?|Episode\s?)\d+.*], IGNORECASE *)
Definition episode : pattern :=
  Pattern true (star space +> PATTERNS.episode_word +> plus digit +> rest).

(** [\s*-\s*\d+.*] *)
Definition dash_number : pattern :=
  Pattern false (star space +> Lit "-" +> star space +> plus digit +> rest).

Definition opening : cclass := one_of ["["; "("]%char.
Definition closing : cclass := one_of ["]"; ")"]%char.

(** [\s*[\[\(][^\]\)]*[\]\)]\s*$] *)
Definition bracket_block : pattern :=
  Pattern false
    (star space +> Cls opening +> star (none_of ["]"; ")"]%char)
     +> Cls closing +> star space +> Eol).

(** [\s*[\[\(].*$] *)
Definition bracket_tail : pattern :=
  Pattern false (star space +> Cls opening +> rest +> Eol).

(** The substitutions after the first one, in the order they are applied. *)
Definition all : list pattern :=
  [season; ordinal_num; ordinal_word; roman; part; cour; episode;
   dash_number; bracket_block; bracket_tail].

End STRIP.

Definition extract_anime_name (title : string) : string :=
  let nm := Str.strip (Re.delete_all PATTERNS.release_group_start title) in
  let nm := Re.delete_all STRIP.season nm in
  let nm := Re.delete_all STRIP.ordinal_num nm in
  let nm := Re.delete_all STRIP.ordinal_word nm in
  let nm := Re.delete_all STRIP.roman nm in
  let nm := Re.delete_all STRIP.part nm in
  let nm := Re.delete_all STRIP.cour nm in
  let nm := Re.delete_all STRIP.episode nm in
  let nm := Re.delete_all STRIP.dash_number nm in
  let nm := Re.delete_all STRIP.bracket_block nm in
  let nm := Re.delete_all STRIP.bracket_tail nm in
  Str.or_else (Str.strip nm) "Unknown".

(** The detail record: a dictionary from field names to texts. *)
Definition detail_dict : Type := list (string * string).

Definition extract_metadata_from_detail (detail : detail_dict)
  : TorrentMetadata :=
  let title := dict_get detail "title" "" in
  let descr := dict_get detail "description" "" in
  let categ := dict_get detail "category" "" in
  let subm := dict_get detail "submitter" "Anonymous" in
  let rg :=
    if Str.truthy subm && negb (String.eqb subm "Anonymous")
    then subm else extract_release_group title in
  {| anime_name := extract_anime_name title;
     season := extract_season title descr;
     episode := extract_episode title;
     quality := extract_quality title descr;
     audio_language := extract_audio_language title descr categ;
     subtitle_language := extract_subtitle_language title descr categ;
     release_group := rg;
     description := if Str.truthy descr then Str.take 200 descr else "" |}.

(* ------------------------------------------------------------------ *)
(** ** models.py, utils.py, cli.py: further functions *)



(** [parse_int_safe(text)]; [None] stands for the [ValueError] that [int]
    raises. *)
Definition parse_int_safe (txt : string) : option Z :=
  let txt := Str.strip txt in
  if Str.isdigit txt then PyInt.of_str txt else Some 0%Z.

(** The characters [sanitize_filename] replaces: < > : double quote / \ | ? * *)
Definition invalid_chars : list ascii :=
  ["<"; ">"; ":"; "034"; "/"; "\"; "|"; "?"; "*"]%char.

Definition sanitize_filename (nm : string) (max_length : Z) : string :=
  let nm :=
    fold_left (fun acc char => Str.replace (String char EmptyString) "_" acc)
              invalid_chars nm in
  Str.slice_to max_length nm.

Definition AUDIO_LANGUAGES : list (string * list string) :=
  [("any", []);
   ("english", ["english dub"; "eng dub"; "dubbed"; "dual audio"; "dual"; "dub"]);
   ("japanese", ["japanese"; "jpn"; "raw"]);
   ("spanish", ["spanish dub"; "latino"; "castellano"; "esp dub"]);
   ("portuguese", ["portuguese"; "pt-br"; "brazilian"]);
   ("french", ["french dub"; "vf"; "french"]);
   ("german", ["german dub"; "german"]);
   ("italian", ["italian dub"; "italian"]);
   ("chinese", ["chinese dub"; "mandarin"; "cantonese"])].

Definition SUBTITLE_LANGUAGES : list (string * list string) :=
  [("any", []);
   ("english", ["eng sub"; "english sub"; "engsub"; "[eng]"; "english"]);
   ("spanish", ["spanish sub"; "esp sub"; "spanish"]);
   ("portuguese", ["portuguese sub"; "pt-br sub"; "portuguese"]);
   ("french", ["french sub"; "vostfr"; "french"]);
   ("german", ["german sub"; "german"]);
   ("italian", ["italian sub"; "italian"]);
   ("chinese", ["chinese sub"; "chi sub"; "chinese"]);
   ("arabic", ["arabic sub"; "arabic"]);
   ("multi", ["multi-sub"; "multisub"; "multi sub"; "multi-subs"])].

Definition matches_language (nm language : string)
    (language_dict : list (string * list string)) : bool :=
  if String.eqb language "any" then true
  else
    let keywords := dict_get language_dict language [] in
    match keywords with
    | [] => true
    | _ :: _ =>
        let name_lower := Str.lower nm in
        existsb (fun kw => Str.contains kw name_lower) keywords
    end.

Definition filter_by_language (ts : list Torrent) (audio_lang sub_lang : string)
  : list Torrent :=
  if String.eqb audio_lang "any" && String.eqb sub_lang "any" then ts
  else
    filter (fun torrent =>
              matches_language (name torrent) audio_lang AUDIO_LANGUAGES
              && matches_language (name torrent) sub_lang SUBTITLE_LANGUAGES)
           ts.

(** [_parse_language_choice(choice, options)] of cli.py. *)
Definition _parse_language_choice (choice : string) (options : list string)
  : string :=
  match PyInt.of_str choice with
  | Some idx =>
      if (0 <=? idx)%Z && (idx <? Z.of_nat (List.length options))%Z
      then nth (Z.to_nat idx) options "any"
      else "any"
  | None =>
      if existsb (String.eqb (Str.lower choice)) options
      then Str.lower choice else "any"
  end.

(* ------------------------------------------------------------------ *)
(** ** grouper.py *)

(** [list.sort(key=key, reverse=True)]: a stable sort, largest key first;
    elements with equal keys keep their order. *)
Section StableSort.

Variable T : Type.
Variable key : T -> Z.

Fixpoint insert_desc (x : T) (l : list T) : list T :=
  match l with
  | [] => [x]
  | y :: l' =>
      if (key x <? key y)%Z then y :: insert_desc x l' else x :: l
  end.

Fixpoint sort_desc (l : list T) : list T :=
  match l with
  | [] => []
  | x :: l' => insert_desc x (sort_desc l')
  end.

End StableSort.

(** First loop: a torrent without metadata gets the fallback record. *)
Definition ensure_metadata (fallback_name : string) (t : Torrent) : Torrent :=
  match metadata t with
  | None => set_metadata t (default_metadata fallback_name)
  | Some _ => t
  end.

(** [groups_dict]: buckets in the order their keys were first inserted. *)
Definition buckets : Type := list (string * list Torrent).

(** [groups_dict[key].append(torrent)] *)
Fixpoint bucket_append (key : string) (t : Torrent) (d : buckets) : buckets :=
  match d with
  | [] => [(key, [t])]
  | (k, l) :: d' =>
      if String.eqb k key then (k, (l ++ [t])%list) :: d'
      else (k, l) :: bucket_append key t d'
  end.

(** Second loop; [None] stands for the [AttributeError] raised by
    [torrent.metadata.group_key()] on a torrent without metadata. *)
Fixpoint fill_buckets (ts : list Torrent) (d : buckets) : option buckets :=
  match ts with
  | [] => Some d
  | t :: ts' =>
      match metadata t with
      | None => None
      | Some m => fill_buckets ts' (bucket_append (group_key m) t d)
      end
  end.

(** The episode numbers of a bucket, in bucket order. *)
Fixpoint collect_episodes (torrent_list : list Torrent) : list Z :=
  match torrent_list with
  | [] => []
  | t :: rest =>
      match metadata t with
      | Some m =>
          if Str.truthy (episode m)
          then
            let ep_str := Str.remove "Episode " (episode m) in
            match PyInt.of_str ep_str with
            | Some n => n :: collect_episodes rest
            | None => collect_episodes rest
            end
          else collect_episodes rest
      | None => collect_episodes rest
      end
  end.

(** [episodes.sort()]: ascending. *)
Fixpoint insert_asc (x : Z) (l : list Z) : list Z :=
  match l with
  | [] => [x]
  | y :: l' => if (y <=? x)%Z then y :: insert_asc x l' else x :: l
  end.

Fixpoint sort_asc (l : list Z) : list Z :=
  match l with
  | [] => []
  | x :: l' => insert_asc x (sort_asc l')
  end.

(** [min(l)] and [max(l)] of a non-empty list. *)
Definition list_min (l : list Z) : Z :=
  match l with [] => 0%Z | x :: r => fold_left Z.min r x end.
Definition list_max (l : list Z) : Z :=
  match l with [] => 0%Z | x :: r => fold_left Z.max r x end.

(** The label built from the collected numbers. *)
Definition episode_label (episodes : list Z) : string :=
  match episodes with
  | [] => "Various"
  | _ :: _ =>
      let episodes := sort_asc episodes in
      if Nat.eqb (List.length episodes) 1
      then "Episode " ++ PyInt.to_str (nth 0 episodes 0%Z)
      else "Episodes " ++ PyInt.to_str (list_min episodes) ++ "-"
           ++ PyInt.to_str (list_max episodes)
  end.

(** The body of the third loop; [None] stands for the error raised on an
    empty bucket or on a first torrent without metadata. *)
Definition build_group (torrent_list : list Torrent) : option TorrentGroup :=
  match torrent_list with
  | [] => None
  | t0 :: _ =>
      match metadata t0 with
      | None => None
      | Some m =>
          let episode_range := episode_label (collect_episodes torrent_list) in
          let is_dubbed :=
            String.eqb (Str.lower (audio_language m)) "english"
            || existsb (fun t => contains_dub_keywords (name t)) torrent_list in
          Some {| g_name := group_name m;
                  g_description :=
                    "Release group: " ++ release_group m ++ ", "
                    ++ "Quality: " ++ quality m ++ ", "
                    ++ "Audio: " ++ audio_language m ++ ", "
                    ++ "Subs: " ++ subtitle_language m;
                  torrents := torrent_list;
                  episode_range := episode_range;
                  g_quality := quality m;
                  is_dubbed := is_dubbed |}
      end
  end.

Fixpoint build_groups (d : buckets) : option (list TorrentGroup) :=
  match d with
  | [] => Some []
  | (_, torrent_list) :: d' =>
      match build_group torrent_list with
      | None => None
      | Some g =>
          match build_groups d' with
          | None => None
          | Some gs => Some (g :: gs)
          end
      end
  end.

(** [group_torrents_deterministic(torrents, anime_name)].  The torrents are
    shared objects that the call updates in place, so the result carries the
    input list as it is after the call next to the returned groups; [None]
    stands for an exception. *)
Definition group_torrents_deterministic
    (ts : list Torrent) (fallback_name : string)
  : option (list Torrent * list TorrentGroup) :=
  match ts with
  | [] => Some ([], [])
  | _ :: _ =>
      let ts' := map (ensure_metadata fallback_name) ts in
      match fill_buckets ts' [] with
      | None => None
      | Some groups_dict =>
          match build_groups groups_dict with
          | None => None
          | Some groups => Some (ts', sort_desc total_seeders groups)
          end
      end
  end.

(* ------------------------------------------------------------------ *)
(** ** metadata.py and grouper.py: fetching the detail pages

    [fetch_detail_page] reads the network and the disk cache; it is taken
    as a parameter that threads the state of that world.  The progress bar
    is left out. *)

Section Fetching.

Variable World : Type.

(** [fetch_detail_page(client, torrent_id)]: the detail record of the page,
    or [None] when the page could not be fetched. *)
Variable fetch_detail_page : World -> string -> option detail_dict * World.

(** The metadata built from the torrent's own name when there is no detail
    record. *)
Definition fallback_metadata (t : Torrent) : TorrentMetadata :=
  {| anime_name := extract_anime_name (name t);
     season := extract_season (name t) "";
     episode := extract_episode (name t);
     quality := extract_quality (name t) "";
     audio_language := "Unknown";
     subtitle_language := "Unknown";
     release_group := extract_release_group (name t);
     description := "" |}.






End Fetching.

(* ================================================================== *)
(** * Properties *)

(* ------------------------------------------------------------------ *)
(** ** Strings *)

Module StrFacts.

Lemma append_empty_r (s : string) : s ++ "" = s.
Proof. induction s as [|c s IH]; simpl; [reflexivity | now rewrite IH]. Qed.

Lemma append_assoc (a b c : string) : (a ++ b) ++ c = a ++ (b ++ c).
Proof. induction a as [|x a IH]; simpl; [reflexivity | now rewrite IH]. Qed.

Lemma length_append (a b : string) :
  String.length (a ++ b) = String.length a + String.length b.
Proof. induction a as [|x a IH]; simpl; [reflexivity | now rewrite IH]. Qed.

Lemma append_inv_head (p a b : string) : p ++ a = p ++ b -> a = b.
Proof.
  induction p as [|x p IH]; simpl; intros H; [exact H|].
  injection H as H. now apply IH.
Qed.

Lemma append_inv_tail (a b t : string) : a ++ t = b ++ t -> a = b.
Proof.
  revert b. induction a as [|x a IH]; intros [|y b] H; simpl in H.
  - reflexivity.
  - apply (f_equal String.length) in H. simpl in H.
    rewrite length_append in H. lia.
  - apply (f_equal String.length) in H. simpl in H.
    rewrite length_append in H. lia.
  - injection H as -> H. f_equal. now apply IH.
Qed.

Lemma take_append (a b : string) : Str.take (String.length a) (a ++ b) = a.
Proof. induction a as [|x a IH]; simpl; [now destruct b | now rewrite IH]. Qed.

Lemma consumed_append (a b : string) : Str.consumed (a ++ b) b = a.
Proof.
  unfold Str.consumed. rewrite length_append.
  replace (String.length a + String.length b - String.length b)
    with (String.length a) by lia.
  apply take_append.
Qed.

(** Stripping on the left leaves no strippable first character. *)
Definition clean_head (p : ascii -> bool) (s : string) : Prop :=
  match s with EmptyString => True | String c _ => p c = false end.

Lemma lstrip_clean (p : ascii -> bool) (s : string) :
  clean_head p (Str.lstrip_by p s).
Proof.
  induction s as [|c s IH]; simpl; [exact I|].
  destruct (p c) eqn:E; [exact IH | simpl; exact E].
Qed.

Lemma lstrip_id (p : ascii -> bool) (s : string) :
  clean_head p s -> Str.lstrip_by p s = s.
Proof. destruct s as [|c s]; simpl; [reflexivity | now intros ->]. Qed.

Lemma rstrip_idem (p : ascii -> bool) (s : string) :
  Str.rstrip_by p (Str.rstrip_by p s) = Str.rstrip_by p s.
Proof.
  induction s as [|c s IH]; simpl; [reflexivity|].
  destruct (Str.rstrip_by p s) as [|d r] eqn:E.
  - destruct (p c) eqn:Ec; simpl; [reflexivity | now rewrite Ec].
  - change (Str.rstrip_by p (String c (String d r)))
      with (match Str.rstrip_by p (String d r) with
            | EmptyString => if p c then EmptyString else String c EmptyString
            | String _ _ as r0 => String c r0
            end).
    now rewrite IH.
Qed.

Lemma rstrip_clean (p : ascii -> bool) (s : string) :
  clean_head p s -> clean_head p (Str.rstrip_by p s).
Proof.
  destruct s as [|c s]; simpl; [trivial|]. intros Hc.
  destruct (Str.rstrip_by p s); [rewrite Hc|]; simpl; exact Hc.
Qed.

Lemma strip_idem (s : string) : Str.strip (Str.strip s) = Str.strip s.
Proof.
  unfold Str.strip.
  rewrite (lstrip_id Chr.is_space
             (Str.rstrip_by Chr.is_space (Str.lstrip_by Chr.is_space s))).
  - apply rstrip_idem.
  - apply rstrip_clean, lstrip_clean.
Qed.

End StrFacts.

(* ------------------------------------------------------------------ *)
(** ** The stable sort *)

Section SortFacts.

Variable T : Type.
Variable key : T -> Z.

Definition desc (a b : T) : Prop := (key b <= key a)%Z.

Lemma insert_desc_perm (x : T) (l : list T) :
  Permutation (insert_desc key x l) (x :: l).
Proof.
  induction l as [|y l IH]; simpl; [reflexivity|].
  destruct (key x <? key y)%Z; [|reflexivity].
  rewrite IH. apply perm_swap.
Qed.

Lemma sort_desc_perm (l : list T) : Permutation (sort_desc key l) l.
Proof.
  induction l as [|x l IH]; simpl; [reflexivity|].
  rewrite insert_desc_perm. now apply perm_skip.
Qed.

Lemma insert_desc_sorted (x : T) (l : list T) :
  StronglySorted desc l -> StronglySorted desc (insert_desc key x l).
Proof.
  induction 1 as [|y l Hs IH Hy]; simpl.
  - constructor; constructor.
  - destruct (key x <? key y)%Z eqn:E.
    + constructor; [exact IH|].
      apply Forall_forall. intros z Hz.
      apply (Permutation_in _ (insert_desc_perm x l)) in Hz.
      destruct Hz as [<- | Hz].
      * unfold desc. apply Z.ltb_lt in E. lia.
      * rewrite Forall_forall in Hy. now apply Hy.
    + apply Z.ltb_ge in E.
      constructor; [now constructor|].
      constructor; [exact E|].
      apply Forall_forall. intros z Hz.
      rewrite Forall_forall in Hy. specialize (Hy z Hz).
      unfold desc in *. lia.
Qed.

Lemma sort_desc_sorted (l : list T) : StronglySorted desc (sort_desc key l).
Proof.
  induction l as [|x l IH]; simpl; [constructor|].
  now apply insert_desc_sorted.
Qed.

(** Stability: among the elements with any one key value the order is the
    original one. *)
Lemma insert_desc_stable (v : Z) (x : T) (l : list T) :
  filter (fun a => (key a =? v)%Z) (insert_desc key x l)
  = filter (fun a => (key a =? v)%Z) (x :: l).
Proof.
  induction l as [|y l IH]; [reflexivity|].
  cbn [insert_desc]. destruct (key x <? key y)%Z eqn:E; [|reflexivity].
  apply Z.ltb_lt in E. cbn [filter] in IH |- *. rewrite IH.
  destruct (key x =? v)%Z eqn:Ex; [|reflexivity].
  destruct (key y =? v)%Z eqn:Ey; [|reflexivity].
  apply Z.eqb_eq in Ex, Ey. lia.
Qed.

Lemma sort_desc_stable (v : Z) (l : list T) :
  filter (fun a => (key a =? v)%Z) (sort_desc key l)
  = filter (fun a => (key a =? v)%Z) l.
Proof.
  induction l as [|x l IH]; [reflexivity|].
  cbn [sort_desc]. rewrite insert_desc_stable.
  cbn [filter]. now rewrite IH.
Qed.

(** A list that is already in descending order is left as it is. *)
Lemma insert_desc_head (x : T) (l : list T) :
  Forall (desc x) l -> insert_desc key x l = x :: l.
Proof.
  destruct l as [|y l]; [reflexivity|]. intros H.
  apply Forall_inv in H. unfold desc in H. simpl.
  destruct (key x <? key y)%Z eqn:E; [|reflexivity].
  apply Z.ltb_lt in E. lia.
Qed.

Lemma sort_desc_fixed (l : list T) :
  StronglySorted desc l -> sort_desc key l = l.
Proof.
  induction 1 as [|x l Hs IH Hx]; [reflexivity|].
  simpl. rewrite IH. now apply insert_desc_head.
Qed.

End SortFacts.

(* ------------------------------------------------------------------ *)
(** ** Buckets *)

Module GroupFacts.

Definition has_metadata (t : Torrent) : bool :=
  match metadata t with Some _ => true | None => false end.

(** The key a torrent is filed under. *)
Definition key_of (t : Torrent) : string :=
  match metadata t with Some m => group_key m | None => EmptyString end.

(** Keys in the order of their first occurrence. *)
Fixpoint first_seen (ks : list string) : list string :=
  match ks with
  | [] => []
  | k :: r => k :: filter (fun k' => negb (String.eqb k' k)) (first_seen r)
  end.

(** The torrents filed under [k], in input order. *)
Definition members (k : string) (ts : list Torrent) : list Torrent :=
  filter (fun t => String.eqb (key_of t) k) ts.

Definition buckets_of (ts : list Torrent) : buckets :=
  map (fun k => (k, members k ts)) (first_seen (map key_of ts)).

Lemma ensure_metadata_has (n : string) (t : Torrent) :
  has_metadata (ensure_metadata n t) = true.
Proof.
  unfold ensure_metadata, has_metadata.
  destruct (metadata t) eqn:E; [now rewrite E | reflexivity].
Qed.

Lemma ensure_metadata_id (n : string) (t : Torrent) :
  has_metadata t = true -> ensure_metadata n t = t.
Proof.
  unfold ensure_metadata, has_metadata.
  destruct (metadata t); [reflexivity | discriminate].
Qed.

Lemma ensure_all (n : string) (ts : list Torrent) :
  forallb has_metadata (map (ensure_metadata n) ts) = true.
Proof.
  induction ts as [|t ts IH]; simpl; [reflexivity|].
  now rewrite ensure_metadata_has, IH.
Qed.

Lemma ensure_fixed (n : string) (ts : list Torrent) :
  forallb has_metadata ts = true -> map (ensure_metadata n) ts = ts.
Proof.
  induction ts as [|t ts IH]; simpl; [reflexivity|].
  intros H. apply andb_prop in H as [H1 H2].
  now rewrite ensure_metadata_id, IH.
Qed.

Lemma first_seen_in (k : string) (ks : list string) :
  In k (first_seen ks) <-> In k ks.
Proof.
  induction ks as [|a ks IH]; simpl; [tauto|].
  rewrite filter_In, IH. split.
  - intros [H | [H _]]; auto.
  - intros [H | H]; auto.
    destruct (String.eqb_spec k a) as [->|Hn]; auto.
Qed.

Lemma first_seen_nodup (ks : list string) : NoDup (first_seen ks).
Proof.
  induction ks as [|a ks IH]; simpl; constructor.
  - rewrite filter_In. intros [_ H]. now rewrite String.eqb_refl in H.
  - now apply NoDup_filter.
Qed.

Lemma first_seen_snoc (ks : list string) (k : string) :
  first_seen (ks ++ [k])
  = if existsb (String.eqb k) ks then first_seen ks
    else (first_seen ks ++ [k])%list.
Proof.
  induction ks as [|a ks IH]; simpl; [reflexivity|].
  rewrite IH. destruct (String.eqb_spec k a) as [->|Hn]; simpl.
  - destruct (existsb (String.eqb a) ks); [reflexivity|].
    rewrite filter_app. simpl. rewrite String.eqb_refl. simpl.
    now rewrite app_nil_r.
  - destruct (existsb (String.eqb k) ks); [reflexivity|].
    rewrite filter_app. simpl.
    destruct (String.eqb_spec k a); [contradiction | reflexivity].
Qed.

Lemma members_snoc (k : string) (ts : list Torrent) (t : Torrent) :
  members k (ts ++ [t])
  = (members k ts ++ (if String.eqb (key_of t) k then [t] else []))%list.
Proof. unfold members. rewrite filter_app. reflexivity. Qed.

Lemma members_none (k : string) (ts : list Torrent) :
  ~ In k (map key_of ts) -> members k ts = [].
Proof.
  induction ts as [|t ts IH]; simpl; [reflexivity|]. intros H.
  destruct (String.eqb_spec (key_of t) k) as [E|_]; [tauto|].
  apply IH. tauto.
Qed.

Section Append.

Variables (k : string) (t : Torrent) (M : string -> list Torrent).

Definition M' (k' : string) : list Torrent :=
  (M k' ++ (if String.eqb k k' then [t] else []))%list.

Lemma bucket_append_absent (ks : list string) :
  ~ In k ks ->
  bucket_append k t (map (fun k' => (k', M k')) ks)
  = (map (fun k' => (k', M' k')) ks ++ [(k, [t])])%list.
Proof.
  unfold M'. induction ks as [|a ks IH]; simpl; [reflexivity|]. intros H.
  destruct (String.eqb_spec a k) as [E|Hn]; [tauto|].
  destruct (String.eqb_spec k a) as [E|_]; [now subst; tauto|].
  rewrite app_nil_r, IH; tauto.
Qed.

Lemma map_M'_absent (ks : list string) :
  ~ In k ks ->
  map (fun k' => (k', M' k')) ks = map (fun k' => (k', M k')) ks.
Proof.
  unfold M'. intros H. apply map_ext_in. intros a Ha.
  destruct (String.eqb_spec k a) as [->|_]; [contradiction|].
  now rewrite app_nil_r.
Qed.

Lemma bucket_append_present (ks : list string) :
  NoDup ks -> In k ks ->
  bucket_append k t (map (fun k' => (k', M k')) ks)
  = map (fun k' => (k', M' k')) ks.
Proof.
  induction 1 as [|a ks Ha Hnd IH]; simpl; [tauto|]. intros Hin.
  destruct (String.eqb_spec a k) as [->|Hn].
  - rewrite map_M'_absent by exact Ha. unfold M'. now rewrite String.eqb_refl.
  - destruct Hin as [E|Hin]; [contradiction|].
    rewrite IH by exact Hin. unfold M' at 2.
    destruct (String.eqb_spec k a) as [E|_]; [now subst|].
    now rewrite app_nil_r.
Qed.

End Append.

Lemma existsb_eqb_in (k : string) (ks : list string) :
  existsb (String.eqb k) ks = true <-> In k ks.
Proof.
  rewrite existsb_exists. split.
  - intros [x [Hx E]]. apply String.eqb_eq in E. now subst.
  - intros H. exists k. now rewrite String.eqb_refl.
Qed.

Lemma bucket_append_spec (done : list Torrent) (t : Torrent) :
  bucket_append (key_of t) t (buckets_of done) = buckets_of (done ++ [t]).
Proof.
  unfold buckets_of. rewrite map_app. simpl. rewrite first_seen_snoc.
  destruct (existsb (String.eqb (key_of t)) (map key_of done)) eqn:E.
  - apply existsb_eqb_in in E.
    rewrite bucket_append_present;
      [| apply first_seen_nodup | now apply first_seen_in].
    apply map_ext. intros a. unfold M'. rewrite members_snoc.
    now rewrite String.eqb_sym.
  - assert (Hn : ~ In (key_of t) (map key_of done)).
    { intros H. apply existsb_eqb_in in H. congruence. }
    rewrite bucket_append_absent; [| now rewrite first_seen_in].
    rewrite map_app. simpl. f_equal.
    + apply map_ext. intros a. unfold M'. rewrite members_snoc.
      now rewrite String.eqb_sym.
    + rewrite members_snoc, String.eqb_refl, (members_none _ _ Hn).
      reflexivity.
Qed.

Lemma fill_buckets_spec (ts done : list Torrent) :
  forallb has_metadata ts = true ->
  fill_buckets ts (buckets_of done) = Some (buckets_of (done ++ ts)).
Proof.
  revert done. induction ts as [|t ts IH]; intros done H; simpl.
  - now rewrite app_nil_r.
  - simpl in H. apply andb_prop in H as [H1 H2].
    unfold has_metadata in H1.
    destruct (metadata t) as [m|] eqn:E; [|discriminate].
    replace (group_key m) with (key_of t) by (unfold key_of; now rewrite E).
    rewrite bucket_append_spec, IH by assumption.
    now rewrite <- app_assoc.
Qed.

(** What [build_group] returns on a bucket. *)
Lemma build_group_some (l : list Torrent) :
  l <> [] -> forallb has_metadata l = true ->
  exists g, build_group l = Some g.
Proof.
  destruct l as [|t0 l]; [congruence|]. intros _ H. simpl in H.
  apply andb_prop in H as [H _]. unfold has_metadata in H. unfold build_group.
  destruct (metadata t0); [eauto | discriminate].
Qed.

Lemma build_group_torrents (l : list Torrent) (g : TorrentGroup) :
  build_group l = Some g -> torrents g = l.
Proof.
  unfold build_group. destruct l as [|t0 l]; [discriminate|].
  destruct (metadata t0); [|discriminate].
  intros H. injection H as <-. reflexivity.
Qed.

Lemma build_group_label (l : list Torrent) (g : TorrentGroup) :
  build_group l = Some g ->
  episode_range g = episode_label (collect_episodes l).
Proof.
  unfold build_group. destruct l as [|t0 l]; [discriminate|].
  destruct (metadata t0); [|discriminate].
  intros H. injection H as <-. reflexivity.
Qed.

Lemma build_group_name (l : list Torrent) (g : TorrentGroup) :
  build_group l = Some g ->
  exists t0 m, hd_error l = Some t0 /\ metadata t0 = Some m
               /\ g_name g = group_name m /\ g_quality g = quality m.
Proof.
  unfold build_group. destruct l as [|t0 l]; [discriminate|].
  destruct (metadata t0) as [m|] eqn:E; [|discriminate].
  intros H. injection H as <-. exists t0, m. auto.
Qed.

(** A group is determined by its torrents. *)
Lemma build_group_inj (g1 g2 : TorrentGroup) :
  build_group (torrents g1) = Some g1 ->
  build_group (torrents g2) = Some g2 ->
  torrents g1 = torrents g2 -> g1 = g2.
Proof. intros H1 H2 E. rewrite E in H1. congruence. Qed.

Definition built (b : string * list Torrent) (g : TorrentGroup) : Prop :=
  build_group (snd b) = Some g.

Lemma build_groups_forall2 (d : buckets) (gs : list TorrentGroup) :
  build_groups d = Some gs <-> Forall2 built d gs.
Proof.
  revert gs. induction d as [|[k l] d IH]; intros gs; simpl.
  - split.
    + intros H. injection H as <-. constructor.
    + intros H. inversion H. reflexivity.
  - split.
    + destruct (build_group l) as [g|] eqn:E; [|discriminate].
      destruct (build_groups d) as [gs'|]; [|discriminate].
      intros H. injection H as <-. constructor; [exact E | now apply IH].
    + intros H. inversion H as [|b g d' gs' Hb Hr]; subst.
      unfold built in Hb. simpl in Hb. rewrite Hb.
      apply IH in Hr. now rewrite Hr.
Qed.

Lemma build_groups_some (d : buckets) :
  Forall (fun b => snd b <> [] /\ forallb has_metadata (snd b) = true) d ->
  exists gs, build_groups d = Some gs.
Proof.
  induction 1 as [|[k l] d [H1 H2] _ [gs IH]]; simpl; [eauto|].
  simpl in H1, H2. destruct (build_group_some H1 H2) as [g ->]. rewrite IH. eauto.
Qed.

Lemma members_some (k : string) (ts : list Torrent) :
  In k (map key_of ts) -> members k ts <> [].
Proof.
  rewrite in_map_iff. intros [t [E Ht]] Hm.
  assert (In t (members k ts)).
  { apply filter_In. split; [exact Ht | now apply String.eqb_eq]. }
  rewrite Hm in H. contradiction.
Qed.

Lemma members_all (k : string) (ts : list Torrent) :
  forallb has_metadata ts = true -> forallb has_metadata (members k ts) = true.
Proof.
  rewrite !forallb_forall. intros H t Ht.
  apply filter_In in Ht. now apply H.
Qed.

Lemma buckets_of_ok (ts : list Torrent) :
  forallb has_metadata ts = true ->
  Forall (fun b => snd b <> [] /\ forallb has_metadata (snd b) = true)
         (buckets_of ts).
Proof.
  intros H. apply Forall_forall. intros [k l] Hb.
  unfold buckets_of in Hb. apply in_map_iff in Hb as [k' [E Hk]].
  injection E as -> <-. simpl. split.
  - apply members_some. now apply first_seen_in.
  - now apply members_all.
Qed.

(** The groups in the order their keys were first met, before sorting. *)
Definition discovered (ts : list Torrent) (gs : list TorrentGroup) : Prop :=
  Forall2 built (buckets_of ts) gs.

(** The shape of every call on a non-empty list. *)
Lemma grouped (ts : list Torrent) (n : string) :
  ts <> [] ->
  exists gs0,
    discovered (map (ensure_metadata n) ts) gs0
    /\ group_torrents_deterministic ts n
       = Some (map (ensure_metadata n) ts, sort_desc total_seeders gs0).
Proof.
  intros Hne. unfold group_torrents_deterministic.
  destruct ts as [|t ts]; [congruence|].
  set (ts' := map (ensure_metadata n) (t :: ts)).
  pose proof (ensure_all n (t :: ts)) as Hall. fold ts' in Hall.
  change (buckets_of []) with ([] : buckets) in *.
  pose proof (fill_buckets_spec ts' [] Hall) as Hf.
  change (buckets_of []) with ([] : buckets) in Hf. simpl app in Hf.
  rewrite Hf.
  destruct (build_groups_some (buckets_of_ok ts' Hall)) as [gs0 Hg].
  rewrite Hg. exists gs0. split; [|reflexivity].
  now apply build_groups_forall2.
Qed.

Lemma discovered_torrents (ts : list Torrent) (gs : list TorrentGroup) :
  discovered ts gs ->
  map torrents gs
  = map (fun k => members k ts) (first_seen (map key_of ts)).
Proof.
  unfold discovered, buckets_of.
  generalize (first_seen (map key_of ts)) as ks. intros ks. revert gs.
  induction ks as [|k ks IH]; intros gs H; inversion H; subst; simpl.
  - reflexivity.
  - f_equal; [now apply build_group_torrents | now apply IH].
Qed.

Lemma discovered_built (ts : list Torrent) (gs : list TorrentGroup) :
  discovered ts gs ->
  Forall (fun g => build_group (torrents g) = Some g) gs.
Proof.
  unfold discovered. generalize (buckets_of ts) as d. intros d H.
  induction H as [|b g d gs Hb _ IH]; constructor; [|exact IH].
  unfold built in Hb. now rewrite (build_group_torrents _ Hb).
Qed.

(** Partition: the buckets together hold every torrent once. *)
Lemma members_cons (k : string) (t : Torrent) (r : list Torrent) :
  members k (t :: r)
  = if String.eqb (key_of t) k then t :: members k r else members k r.
Proof. reflexivity. Qed.

Lemma members_cons_other (t : Torrent) (r : list Torrent) (ks : list string) :
  ~ In (key_of t) ks ->
  map (fun k => members k (t :: r)) ks = map (fun k => members k r) ks.
Proof.
  intros H. apply map_ext_in. intros b Hb. rewrite members_cons.
  destruct (String.eqb_spec (key_of t) b); [subst; contradiction|].
  reflexivity.
Qed.

Lemma members_cons_perm (t : Torrent) (r : list Torrent) (ks : list string) :
  NoDup ks -> In (key_of t) ks ->
  Permutation (List.concat (map (fun k => members k (t :: r)) ks))
              (t :: List.concat (map (fun k => members k r) ks)).
Proof.
  induction 1 as [|a ks Ha Hnd IH]; [simpl; tauto|]. intros Hin.
  cbn [map List.concat]. rewrite members_cons.
  destruct (String.eqb_spec (key_of t) a) as [E|Hn].
  - subst a. rewrite members_cons_other by exact Ha. reflexivity.
  - destruct Hin as [E|Hin]; [now subst|].
    rewrite (IH Hin). symmetry. apply Permutation_middle.
Qed.

Lemma members_partition (ts : list Torrent) (ks : list string) :
  NoDup ks -> (forall t, In t ts -> In (key_of t) ks) ->
  Permutation (List.concat (map (fun k => members k ts) ks)) ts.
Proof.
  intros Hnd. induction ts as [|t r IH]; intros Hk.
  - simpl. clear. induction ks; simpl; auto.
  - rewrite members_cons_perm; [| exact Hnd | apply Hk; now left].
    apply perm_skip. apply IH. intros x Hx. apply Hk. now right.
Qed.

Lemma discovered_partition (ts : list Torrent) (gs : list TorrentGroup) :
  discovered ts gs -> Permutation (List.concat (map torrents gs)) ts.
Proof.
  intros H. rewrite (discovered_torrents H).
  apply members_partition; [apply first_seen_nodup|].
  intros t Ht. apply first_seen_in. now apply in_map.
Qed.

Lemma discovered_members (ts : list Torrent) (gs : list TorrentGroup) :
  discovered ts gs ->
  forall g, In g gs ->
    exists k, In k (map key_of ts) /\ torrents g = members k ts.
Proof.
  intros H g Hg. apply (in_map torrents) in Hg.
  rewrite (discovered_torrents H) in Hg.
  apply in_map_iff in Hg as [k [E Hk]]. exists k. split; [|now symmetry].
  now apply first_seen_in.
Qed.

Lemma discovered_has (ts : list Torrent) (gs : list TorrentGroup) :
  discovered ts gs ->
  forall k, In k (map key_of ts) ->
    exists g, In g gs /\ torrents g = members k ts.
Proof.
  intros H k Hk.
  assert (Hin : In (members k ts) (map torrents gs)).
  { rewrite (discovered_torrents H).
    apply (in_map (fun k => members k ts)). now apply first_seen_in. }
  apply in_map_iff in Hin as [g [E Hg]]. eauto.
Qed.

Lemma members_key (k : string) (ts : list Torrent) (t : Torrent) :
  In t (members k ts) <-> In t ts /\ key_of t = k.
Proof. unfold members. rewrite filter_In, String.eqb_eq. tauto. Qed.

(** No torrent is filed in two groups. *)
Lemma discovered_unique (ts : list Torrent) (gs : list TorrentGroup) :
  discovered ts gs ->
  forall g g' t, In g gs -> In g' gs ->
    In t (torrents g) -> In t (torrents g') -> g' = g.
Proof.
  intros H g g' t Hg Hg' Ht Ht'.
  destruct (discovered_members H g Hg) as [k [_ E]].
  destruct (discovered_members H g' Hg') as [k' [_ E']].
  rewrite E in Ht. rewrite E' in Ht'.
  apply members_key in Ht as [_ <-]. apply members_key in Ht' as [_ <-].
  pose proof (discovered_built H) as Hb. rewrite Forall_forall in Hb.
  apply build_group_inj; [now apply Hb | now apply Hb | congruence].
Qed.

Lemma ensure_metadata_effect (n : string) (ts : list Torrent) :
  Forall2 (fun t t' =>
             match metadata t with
             | None => t' = set_metadata t (default_metadata n)
             | Some _ => t' = t
             end) ts (map (ensure_metadata n) ts).
Proof.
  induction ts as [|t ts IH]; simpl; constructor; [|exact IH].
  unfold ensure_metadata. now destruct (metadata t).
Qed.

Lemma has_metadata_in (ts : list Torrent) (t : Torrent) :
  forallb has_metadata ts = true -> In t ts -> metadata t <> None.
Proof.
  rewrite forallb_forall. intros H Ht. specialize (H t Ht).
  unfold has_metadata in H. now destruct (metadata t).
Qed.

End GroupFacts.

(* ------------------------------------------------------------------ *)
(** ** Claims about the grouping engine *)

Import GroupFacts.

(** C10. [group_torrents_deterministic] always returns; afterwards every
    torrent of the input list carries metadata (a torrent that had none now
    has the fallback record built from the given anime name, the others are
    unchanged), the groups' torrent lists together are a permutation of the
    input list, every input torrent lies in exactly one returned group, and
    each group lists, in input order, the torrents filed under one key. *)
Theorem C10_in_place_partition (ts : list Torrent) (n : string) :
  exists ts' gs,
    group_torrents_deterministic ts n = Some (ts', gs)
    /\ Forall2 (fun t t' =>
                  match metadata t with
                  | None => t' = set_metadata t (default_metadata n)
                  | Some _ => t' = t
                  end) ts ts'
    /\ (forall t', In t' ts' -> metadata t' <> None)
    /\ Permutation (List.concat (map torrents gs)) ts'
    /\ (forall t', In t' ts' ->
          exists g, In g gs /\ In t' (torrents g)
                    /\ forall g', In g' gs -> In t' (torrents g') -> g' = g)
    /\ (forall g, In g gs ->
          exists k,
            torrents g = filter (fun t => String.eqb (key_of t) k) ts').
Proof.
  destruct ts as [|t0 ts].
  - exists [], []. simpl. repeat split; try constructor; try tauto.
  - destruct (@grouped (t0 :: ts) n) as [gs0 [Hd Hg]]; [discriminate|].
    set (ts' := map (ensure_metadata n) (t0 :: ts)) in *.
    pose proof (sort_desc_perm total_seeders gs0) as Hp.
    exists ts', (sort_desc total_seeders gs0).
    split; [exact Hg|]. split; [apply ensure_metadata_effect|].
    split; [intros t' Ht'; eapply has_metadata_in; [apply ensure_all|exact Ht']|].
    split.
    { transitivity (List.concat (map torrents gs0));
        [|exact (discovered_partition Hd)].
      clear -Hp. induction Hp; simpl.
      - reflexivity.
      - now apply Permutation_app_head.
      - rewrite !app_assoc. apply Permutation_app_tail, Permutation_app_comm.
      - etransitivity; eassumption. }
    split.
    { intros t' Ht'.
      destruct (discovered_has Hd (key_of t')) as [g [Hg1 Hg2]];
        [now apply in_map|].
      exists g. split; [eapply Permutation_in; [symmetry; exact Hp|exact Hg1]|].
      split; [rewrite Hg2; now apply members_key|].
      intros g' Hg' Hin. apply (discovered_unique Hd) with (t := t'); auto.
      - eapply Permutation_in; [exact Hp | exact Hg'].
      - rewrite Hg2. now apply members_key. }
    intros g Hgin. apply (Permutation_in _ Hp) in Hgin.
    destruct (discovered_members Hd g Hgin) as [k [_ E]]. now exists k.
Qed.

Lemma discovered_functional (ts : list Torrent) (gs gs' : list TorrentGroup) :
  discovered ts gs -> discovered ts gs' -> gs = gs'.
Proof.
  unfold discovered. rewrite <- !build_groups_forall2. congruence.
Qed.

(** C3. Calling [group_torrents_deterministic] a second time on the same
    list (whose torrents the first call has updated in place) with the same
    fallback name returns the same list of groups: the same names, the same
    torrents in the same groups, in the same order; the input list is not
    changed again. *)
Theorem C3_second_call_same_groups (ts : list Torrent) (n : string) :
  exists ts' gs,
    group_torrents_deterministic ts n = Some (ts', gs)
    /\ group_torrents_deterministic ts' n = Some (ts', gs).
Proof.
  destruct ts as [|t0 ts]; [now exists [], []|].
  destruct (@grouped (t0 :: ts) n) as [gs0 [Hd Hg]]; [discriminate|].
  set (ts' := map (ensure_metadata n) (t0 :: ts)) in *.
  exists ts', (sort_desc total_seeders gs0). split; [exact Hg|].
  destruct (@grouped ts' n) as [gs1 [Hd1 Hg1]]; [discriminate|].
  rewrite (ensure_fixed n ts' (ensure_all n (t0 :: ts))) in Hd1, Hg1.
  now rewrite (discovered_functional Hd Hd1).
Qed.

(** The three torrents of the example of C4: seeders 50, 100 and 30, the
    first and the third from one release group. *)
Definition sample_metadata (rg ep : string) : TorrentMetadata :=
  {| anime_name := "Test Anime"; season := "Season 1"; episode := ep;
     quality := "1080p"; audio_language := "Japanese";
     subtitle_language := "English"; release_group := rg;
     description := "" |}.

Definition sample_torrent (i : string) (s : Z) (m : option TorrentMetadata)
  : Torrent :=
  {| id := i; name := "[SubsPlease] Test Anime - 01 (1080p) [ABC123].mkv";
     magnet := "magnet:?xt=urn:btih:ABC123";
     torrent_url := "https://nyaa.si/download/12345.torrent";
     size := "1.4 GiB"; date := "2024-01-15 12:00";
     seeders := s; leechers := 10; downloads := 500;
     category := "Anime - English-translated"; submitter := "SubsPlease";
     metadata := m |}.

Definition seeders_example : list Torrent :=
  [sample_torrent "1" 50 (Some (sample_metadata "Group1" "Episode 1"));
   sample_torrent "2" 100 (Some (sample_metadata "Group2" "Episode 1"));
   sample_torrent "3" 30 (Some (sample_metadata "Group1" "Episode 1"))].

(** C4. The returned groups are in descending order of [total_seeders];
    they are the groups in the order their keys were first met in the input,
    rearranged so that groups with equal totals keep that order.  On the
    seeders 50, 100, 30 split over two keys as 50+30 and 100 the totals come
    out as 100, 80. *)
Theorem C4_sorted_by_total_seeders :
  (forall (ts : list Torrent) (n : string),
     exists ts' gs disc,
       group_torrents_deterministic ts n = Some (ts', gs)
       /\ StronglySorted
            (fun a b => (total_seeders b <= total_seeders a)%Z) gs
       /\ map torrents disc
          = map (fun k => filter (fun t => String.eqb (key_of t) k) ts')
                (first_seen (map key_of ts'))
       /\ Permutation gs disc
       /\ forall v : Z,
            filter (fun g => (total_seeders g =? v)%Z) gs
            = filter (fun g => (total_seeders g =? v)%Z) disc)
  /\ option_map (fun r => map total_seeders (snd r))
       (group_torrents_deterministic seeders_example "Test Anime")
     = Some [100; 80]%Z.
Proof.
  split; [|vm_compute; reflexivity].
  intros ts n. destruct ts as [|t0 ts].
  - exists [], [], []. simpl. repeat split; constructor.
  - destruct (@grouped (t0 :: ts) n) as [gs0 [Hd Hg]]; [discriminate|].
    set (ts' := map (ensure_metadata n) (t0 :: ts)) in *.
    exists ts', (sort_desc total_seeders gs0), gs0.
    split; [exact Hg|].
    split; [apply (sort_desc_sorted total_seeders)|].
    split; [exact (discovered_torrents Hd)|].
    split; [apply sort_desc_perm|].
    intros v. apply sort_desc_stable.
Qed.

(** The six fields that make up the key. *)
Definition key_fields (m : TorrentMetadata) : list string :=
  [release_group m; anime_name m; season m; audio_language m;
   subtitle_language m; quality m].

(** In how many of the six key fields two records differ. *)
Definition differing (m1 m2 : TorrentMetadata) : nat :=
  List.length
    (filter (fun p => negb (String.eqb (fst p) (snd p)))
            (combine (key_fields m1) (key_fields m2))).

Lemma group_key_one_field (m1 m2 : TorrentMetadata) :
  differing m1 m2 = 1 -> group_key m1 <> group_key m2.
Proof.
  destruct m1 as [a1 s1 e1 q1 al1 sl1 r1 d1], m2 as [a2 s2 e2 q2 al2 sl2 r2 d2].
  unfold differing, key_fields, group_key. cbn [combine filter fst snd
    release_group anime_name season audio_language subtitle_language quality].
  destruct (String.eqb_spec r1 r2), (String.eqb_spec a1 a2),
    (String.eqb_spec s1 s2), (String.eqb_spec al1 al2),
    (String.eqb_spec sl1 sl2), (String.eqb_spec q1 q2);
    cbn [negb List.length]; intros H E; try discriminate H; subst;
    repeat first
      [ apply StrFacts.append_inv_head in E
      | apply StrFacts.append_inv_tail in E
      | progress (simpl in E; injection E as E) ];
    congruence.
Qed.

Lemma two_torrents_two_keys (t1 t2 : Torrent) (m1 m2 : TorrentMetadata)
    (n : string) :
  metadata t1 = Some m1 -> metadata t2 = Some m2 ->
  group_key m1 <> group_key m2 ->
  exists ga gb,
    group_torrents_deterministic [t1; t2] n = Some ([t1; t2], [ga; gb])
    /\ ((torrents ga = [t1] /\ torrents gb = [t2])
        \/ (torrents ga = [t2] /\ torrents gb = [t1])).
Proof.
  intros H1 H2 Hk. unfold group_torrents_deterministic. cbn [map].
  rewrite !ensure_metadata_id by (unfold has_metadata; now rewrite ?H1, ?H2).
  cbn [fill_buckets]. rewrite H1, H2. cbn [bucket_append].
  destruct (String.eqb_spec (group_key m1) (group_key m2)); [contradiction|].
  cbn [build_groups build_group]. rewrite H1, H2.
  cbn [sort_desc insert_desc]. match goal with |- context [(?a <? ?b)%Z] =>
    destruct (a <? b)%Z end; do 2 eexists; (split; [reflexivity|]); simpl; auto.
Qed.

Lemma two_torrents_one_key (t1 t2 : Torrent) (m1 m2 : TorrentMetadata)
    (n : string) :
  metadata t1 = Some m1 -> metadata t2 = Some m2 ->
  group_key m1 = group_key m2 ->
  exists g,
    group_torrents_deterministic [t1; t2] n = Some ([t1; t2], [g])
    /\ torrents g = [t1; t2].
Proof.
  intros H1 H2 Hk. unfold group_torrents_deterministic. cbn [map].
  rewrite !ensure_metadata_id by (unfold has_metadata; now rewrite ?H1, ?H2).
  cbn [fill_buckets]. rewrite H1, H2. cbn [bucket_append].
  rewrite Hk, String.eqb_refl.
  cbn [build_groups build_group app]. rewrite H1.
  cbn [sort_desc insert_desc]. eexists. split; reflexivity.
Qed.

(** C2. Two metadata records that differ in exactly one of the six key
    fields have different group keys, and two torrents carrying them are
    returned as two groups of one torrent each. *)
Theorem C2_key_completeness (m1 m2 : TorrentMetadata)
    (t1 t2 : Torrent) (n : string) :
  differing m1 m2 = 1 ->
  metadata t1 = Some m1 -> metadata t2 = Some m2 ->
  group_key m1 <> group_key m2
  /\ exists ga gb,
       group_torrents_deterministic [t1; t2] n = Some ([t1; t2], [ga; gb])
       /\ ((torrents ga = [t1] /\ torrents gb = [t2])
           \/ (torrents ga = [t2] /\ torrents gb = [t1])).
Proof.
  intros Hd H1 H2. pose proof (group_key_one_field _ _ Hd) as Hk.
  split; [exact Hk|]. now apply two_torrents_two_keys with m1 m2.
Qed.

(** C2 at the records of the example: release groups "SubsPlease" and
    "Erai-raws", all else equal. *)
Lemma C2_key_completeness_witness :
  group_key (sample_metadata "SubsPlease" "Episode 1")
    <> group_key (sample_metadata "Erai-raws" "Episode 1")
  /\ exists ga gb,
       group_torrents_deterministic
         [sample_torrent "1" 100 (Some (sample_metadata "SubsPlease" "Episode 1"));
          sample_torrent "2" 100 (Some (sample_metadata "Erai-raws" "Episode 1"))]
         "Test Anime"
       = Some
           ([sample_torrent "1" 100 (Some (sample_metadata "SubsPlease" "Episode 1"));
             sample_torrent "2" 100 (Some (sample_metadata "Erai-raws" "Episode 1"))],
            [ga; gb])
       /\ ((torrents ga
            = [sample_torrent "1" 100 (Some (sample_metadata "SubsPlease" "Episode 1"))]
            /\ torrents gb
               = [sample_torrent "2" 100 (Some (sample_metadata "Erai-raws" "Episode 1"))])
           \/ (torrents ga
               = [sample_torrent "2" 100 (Some (sample_metadata "Erai-raws" "Episode 1"))]
               /\ torrents gb
                  = [sample_torrent "1" 100 (Some (sample_metadata "SubsPlease" "Episode 1"))])).
Proof.
  apply (@C2_key_completeness
           (sample_metadata "SubsPlease" "Episode 1")
           (sample_metadata "Erai-raws" "Episode 1")); reflexivity.
Defined.

(** Two records that differ in release group and anime name, with a "|"
    inside a field. *)
Definition piped_left : TorrentMetadata :=
  {| anime_name := "c"; season := "Season 1"; episode := "";
     quality := "Unknown"; audio_language := "Unknown";
     subtitle_language := "Unknown"; release_group := "a|b";
     description := "" |}.

Definition piped_right : TorrentMetadata :=
  {| anime_name := "b|c"; season := "Season 1"; episode := "";
     quality := "Unknown"; audio_language := "Unknown";
     subtitle_language := "Unknown"; release_group := "a";
     description := "" |}.

(** C9. The key is not injective in the six fields: the two records above
    differ in two key fields and have the same key, and any two torrents
    carrying them are returned as one group. *)
Theorem C9_key_not_injective :
  differing piped_left piped_right = 2
  /\ group_key piped_left = group_key piped_right
  /\ forall (t1 t2 : Torrent) (n : string),
       metadata t1 = Some piped_left -> metadata t2 = Some piped_right ->
       exists g,
         group_torrents_deterministic [t1; t2] n = Some ([t1; t2], [g])
         /\ torrents g = [t1; t2].
Proof.
  split; [reflexivity|]. split; [reflexivity|].
  intros t1 t2 n H1 H2.
  now apply two_torrents_one_key with piped_left piped_right.
Qed.

(* ------------------------------------------------------------------ *)
(** ** The episode range label *)

Module EpisodeFacts.

(** How an episode field is read as a number: the text "Episode " is taken
    out and the rest is parsed as an integer. *)
Definition parse_episode (e : string) : option Z :=
  PyInt.of_str (Str.remove "Episode " e).

(** The members' episode fields parsed to integers, unparsable ones left
    out, in bucket order. *)
Definition parsed_episodes (l : list Torrent) : list Z :=
  flat_map
    (fun t =>
       match metadata t with
       | Some m =>
           match parse_episode (episode m) with Some n => [n] | None => [] end
       | None => []
       end) l.

(** The label as the specification words it, from the _set_ of parsed
    numbers: "Various" for the empty set, "Episode n" for a singleton,
    "Episodes min-max" otherwise. *)
Definition label_of_set (l : list Torrent) : string :=
  match sort_asc (nodup Z.eq_dec (parsed_episodes l)) with
  | [] => "Various"
  | [n] => "Episode " ++ PyInt.to_str n
  | n :: rest =>
      "Episodes " ++ PyInt.to_str n ++ "-" ++ PyInt.to_str (last rest n)
  end.

Lemma collect_is_parsed (l : list Torrent) :
  collect_episodes l = parsed_episodes l.
Proof.
  induction l as [|t l IH]; simpl; [reflexivity|].
  destruct (metadata t) as [m|]; [|exact IH].
  unfold parse_episode. destruct (episode m) as [|c e] eqn:E; simpl Str.truthy.
  - exact IH.
  - cbv iota. destruct (PyInt.of_str _); simpl; now rewrite IH.
Qed.

Lemma insert_asc_perm (x : Z) (l : list Z) :
  Permutation (insert_asc x l) (x :: l).
Proof.
  induction l as [|y l IH]; simpl; [reflexivity|].
  destruct (y <=? x)%Z; [|reflexivity].
  rewrite IH. apply perm_swap.
Qed.

Lemma sort_asc_perm (l : list Z) : Permutation (sort_asc l) l.
Proof.
  induction l as [|x l IH]; simpl; [reflexivity|].
  rewrite insert_asc_perm. now apply perm_skip.
Qed.

Lemma fold_min_spec (r : list Z) (x : Z) :
  In (fold_left Z.min r x) (x :: r)
  /\ forall e, In e (x :: r) -> (fold_left Z.min r x <= e)%Z.
Proof.
  revert x. induction r as [|y r IH]; intros x; simpl.
  - split; [now left|]. intros e [<-|[]]. lia.
  - destruct (IH (Z.min x y)) as [Hin Hle]. split.
    + destruct Hin as [E|Hin]; [|now right; right].
      rewrite <- E. destruct (Z.min_spec x y) as [[_ ->]|[_ ->]]; auto.
    + intros e He. assert (Hm : (fold_left Z.min r (Z.min x y) <= Z.min x y)%Z)
        by (apply Hle; now left).
      destruct He as [<-|[<-|He]]; [lia | lia |].
      apply Hle. now right.
Qed.

Lemma fold_max_spec (r : list Z) (x : Z) :
  In (fold_left Z.max r x) (x :: r)
  /\ forall e, In e (x :: r) -> (e <= fold_left Z.max r x)%Z.
Proof.
  revert x. induction r as [|y r IH]; intros x; simpl.
  - split; [now left|]. intros e [<-|[]]. lia.
  - destruct (IH (Z.max x y)) as [Hin Hle]. split.
    + destruct Hin as [E|Hin]; [|now right; right].
      rewrite <- E. destruct (Z.max_spec x y) as [[_ ->]|[_ ->]]; auto.
    + intros e He. assert (Hm : (Z.max x y <= fold_left Z.max r (Z.max x y))%Z)
        by (apply Hle; now left).
      destruct He as [<-|[<-|He]]; [lia | lia |].
      apply Hle. now right.
Qed.

(** The three cases of the label, by the number of collected values. *)
Lemma episode_label_cases (eps : list Z) :
  (eps = [] -> episode_label eps = "Various")
  /\ (forall e, eps = [e] -> episode_label eps = "Episode " ++ PyInt.to_str e)
  /\ (2 <= List.length eps ->
      exists lo hi,
        In lo eps /\ In hi eps
        /\ (forall e, In e eps -> (lo <= e <= hi)%Z)
        /\ episode_label eps
           = "Episodes " ++ PyInt.to_str lo ++ "-" ++ PyInt.to_str hi).
Proof.
  split; [now intros ->|]. split; [now intros e ->|].
  intros Hlen. pose proof (sort_asc_perm eps) as Hp.
  pose proof (Permutation_length Hp) as Hl.
  unfold episode_label. destruct eps as [|a eps]; [simpl in Hlen; lia|].
  cbv zeta. destruct (sort_asc (a :: eps)) as [|x r] eqn:Es;
    [simpl in Hl; discriminate|].
  replace (Nat.eqb (List.length (x :: r)) 1) with false
    by (symmetry; apply Nat.eqb_neq; simpl in *; lia).
  unfold list_min, list_max.
  destruct (fold_min_spec r x) as [Hmin Hlo].
  destruct (fold_max_spec r x) as [Hmax Hhi].
  exists (fold_left Z.min r x), (fold_left Z.max r x).
  split; [eapply Permutation_in; eassumption|].
  split; [eapply Permutation_in; eassumption|].
  split; [|reflexivity].
  intros e He. apply (Permutation_in _ (Permutation_sym Hp)) in He.
  split; [now apply Hlo | now apply Hhi].
Qed.

End EpisodeFacts.

Import EpisodeFacts.

(** One bucket holding two torrents that both carry "Episode 1". *)
Definition repeated_episode : list Torrent :=
  [sample_torrent "1" 100 (Some (sample_metadata "Group" "Episode 1"));
   sample_torrent "2" 100 (Some (sample_metadata "Group" "Episode 1"))].

(** C1 as stated fails: the parsed episodes of the group form the singleton
    set {1}, for which the wording gives "Episode 1", but the label is
    "Episodes 1-1". *)
Lemma C1_repeated_episode_counterexample :
  exists ts' g,
    group_torrents_deterministic repeated_episode "Test Anime"
    = Some (ts', [g])
    /\ nodup Z.eq_dec (parsed_episodes (torrents g)) = [1%Z]
    /\ label_of_set (torrents g) = "Episode 1"
    /\ episode_range g = "Episodes 1-1".
Proof. do 2 eexists. vm_compute. repeat split; reflexivity. Qed.

Definition episodes_example (eps : list string) : list Torrent :=
  map (fun e => sample_torrent e 100 (Some (sample_metadata "Group" e))) eps.

(** C1, amended.  For every group produced by
    [group_torrents_deterministic] the range label is computed from the
    list of its members' episode fields parsed to integers (unparsable ones
    left out, repeated values kept): "Various" when the list is empty,
    "Episode n" when it has the single entry n, and "Episodes min-max" with
    its least and greatest value when it has two or more entries.  Episodes
    1, 5, 3 give "Episodes 1-5", no parsable episode gives "Various", one
    torrent with episode 1 gives "Episode 1". *)
Theorem C1_episode_range_label :
  (forall (ts : list Torrent) (n : string),
     exists ts' gs,
       group_torrents_deterministic ts n = Some (ts', gs)
       /\ forall g, In g gs ->
            let eps := parsed_episodes (torrents g) in
            (eps = [] -> episode_range g = "Various")
            /\ (forall e, eps = [e] ->
                  episode_range g = "Episode " ++ PyInt.to_str e)
            /\ (2 <= List.length eps ->
                exists lo hi,
                  In lo eps /\ In hi eps
                  /\ (forall e, In e eps -> (lo <= e <= hi)%Z)
                  /\ episode_range g
                     = "Episodes " ++ PyInt.to_str lo ++ "-"
                       ++ PyInt.to_str hi))
  /\ option_map (fun r => map episode_range (snd r))
       (group_torrents_deterministic
          (episodes_example ["Episode 1"; "Episode 5"; "Episode 3"]) "Test Anime")
     = Some ["Episodes 1-5"]
  /\ option_map (fun r => map episode_range (snd r))
       (group_torrents_deterministic
          (episodes_example [""; "Batch"]) "Test Anime")
     = Some ["Various"]
  /\ option_map (fun r => map episode_range (snd r))
       (group_torrents_deterministic
          (episodes_example ["Episode 1"]) "Test Anime")
     = Some ["Episode 1"].
Proof.
  split; [|repeat split; vm_compute; reflexivity].
  intros ts n. destruct ts as [|t0 ts].
  - exists [], []. split; [reflexivity|]. intros g [].
  - destruct (@grouped (t0 :: ts) n) as [gs0 [Hd Hg]]; [discriminate|].
    do 2 eexists. split; [exact Hg|]. intros g Hin.
    apply (Permutation_in _ (sort_desc_perm total_seeders gs0)) in Hin.
    pose proof (discovered_built Hd) as Hb. rewrite Forall_forall in Hb.
    rewrite (build_group_label _ (Hb g Hin)), collect_is_parsed.
    apply episode_label_cases.
Qed.

(* ------------------------------------------------------------------ *)
(** ** The matcher *)

Module ReFacts.
Import Re.



(** The character in front of what follows [g]. *)
Fixpoint last_of (prev : option ascii) (g : string) : option ascii :=
  match g with
  | EmptyString => prev
  | String x g' => last_of (Some x) g'
  end.

Fixpoint all_in (ic : bool) (c : cclass) (g : string) : bool :=
  match g with
  | EmptyString => true
  | String x g' => cls_mem ic c x && all_in ic c g'
  end.

(** [s] does not begin with a character of the class. *)
Definition stops (ic : bool) (c : cclass) (s : string) : bool :=
  match s with
  | EmptyString => true
  | String x _ => negb (cls_mem ic c x)
  end.

(** A greedy unbounded repetition first tries the whole run. *)
Lemma rep_match_run (A : Type) (ic : bool) (c : cclass) (g s : string)
    (k : option ascii -> string -> option A) (a : A) :
  forall (lo : nat) (prev : option ascii),
    all_in ic c g = true -> stops ic c s = true ->
    lo <= String.length g ->
    k (last_of prev g) s = Some a ->
    rep_match ic c lo None prev (g ++ s) k = Some a.
Proof.
  induction g as [|x g IH]; intros lo prev Hall Hs Hlo Hk.
  - simpl in Hlo. assert (lo = 0) by lia. subst lo. simpl in *.
    destruct s as [|y s]; simpl; [exact Hk|].
    simpl in Hs. apply negb_true_iff in Hs. now rewrite Hs.
  - simpl in Hall. apply andb_prop in Hall as [Hx Hall].
    cbn [append rep_match option_map]. rewrite Hx.
    rewrite (IH (pred lo) (Some x)); [reflexivity | exact Hall | exact Hs | | exact Hk].
    simpl in Hlo. lia.
Qed.

(** *** What a successful match has read

    [span r prev s cs prev' s' cs'] says that [r] can read from [s] (with
    [prev] in front) down to [s'], turning the groups [cs] into [cs']. *)
Inductive span (ic : bool)
  : regex -> option ascii -> string -> caps ->
    option ascii -> string -> caps -> Prop :=
| SpEps p s cs : span ic Eps p s cs p s cs
| SpLit l p s cs p' s' :
    lit_prefix ic l p s = Some (p', s') -> span ic (Lit l) p s cs p' s' cs
| SpCls c p x s cs :
    cls_mem ic c x = true -> span ic (Cls c) p (String x s) cs (Some x) s cs
| SpSeq r1 r2 p s cs p1 s1 cs1 p2 s2 cs2 :
    span ic r1 p s cs p1 s1 cs1 -> span ic r2 p1 s1 cs1 p2 s2 cs2 ->
    span ic (Seq r1 r2) p s cs p2 s2 cs2
| SpAltL r1 r2 p s cs p' s' cs' :
    span ic r1 p s cs p' s' cs' -> span ic (Alt r1 r2) p s cs p' s' cs'
| SpAltR r1 r2 p s cs p' s' cs' :
    span ic r2 p s cs p' s' cs' -> span ic (Alt r1 r2) p s cs p' s' cs'
| SpOptSome r p s cs p' s' cs' :
    span ic r p s cs p' s' cs' -> span ic (Opt r) p s cs p' s' cs'
| SpOptNone r p s cs : span ic (Opt r) p s cs p s cs
| SpRep c lo hi p g s' cs :
    all_in ic c g = true -> lo <= String.length g ->
    match hi with Some h => String.length g <= h | None => True end ->
    span ic (Rep c lo hi) p (g ++ s') cs (last_of p g) s' cs
| SpGrp n r p s cs p' s' cs' :
    span ic r p s cs p' s' cs' ->
    span ic (Grp n r) p s cs p' s' ((n, Str.consumed s s') :: cs')
| SpBol s cs : span ic Bol None s cs None s cs
| SpEol p s cs : at_eol s = true -> span ic Eol p s cs p s cs
| SpWb p s cs :
    xorb (is_word_opt p) (is_word_opt (head_opt s)) = true ->
    span ic Wb p s cs p s cs.

Lemma rep_match_inv (A : Type) (ic : bool) (c : cclass)
    (k : option ascii -> string -> option A) (a : A) (s : string) :
  forall (lo : nat) (hi : option nat) (prev : option ascii),
    rep_match ic c lo hi prev s k = Some a ->
    exists g s',
      s = g ++ s' /\ all_in ic c g = true /\ lo <= String.length g
      /\ match hi with Some h => String.length g <= h | None => True end
      /\ k (last_of prev g) s' = Some a.
Proof.
  assert (Hstop : forall lo hi prev s0,
            match lo with O => k prev s0 | S _ => None end = Some a ->
            exists g s',
              s0 = g ++ s' /\ all_in ic c g = true /\ lo <= String.length g
              /\ match hi with Some h => String.length g <= h | None => True end
              /\ k (last_of prev g) s' = Some a).
  { intros lo hi prev s0 H. destruct lo; [|discriminate].
    exists "", s0. simpl. repeat split; auto. destruct hi; [lia | exact I]. }
  induction s as [|x s IH]; intros lo hi prev H.
  - destruct hi as [[|h]|];
      [apply (Hstop lo (Some 0)) | apply (Hstop lo (Some (S h)))
       | apply (Hstop lo None)]; exact H.
  - cbn [rep_match] in H.
    destruct hi as [[|h]|]; [now apply (Hstop lo (Some 0)) | |].
    + destruct (cls_mem ic c x) eqn:Ex; [|now apply (Hstop lo (Some (S h)))].
      unfold first_some in H.
      destruct (rep_match ic c (pred lo) (option_map pred (Some (S h)))
                  (Some x) s k) eqn:Er; [|now apply (Hstop lo (Some (S h)))].
      injection H as ->. apply IH in Er as [g [s' [E [Hall [Hlo [Hhi Hk]]]]]].
      exists (String x g), s'. simpl in *. rewrite Ex, Hall, E.
      repeat split; auto; lia.
    + destruct (cls_mem ic c x) eqn:Ex; [|now apply (Hstop lo None)].
      unfold first_some in H.
      destruct (rep_match ic c (pred lo) (option_map pred None)
                  (Some x) s k) eqn:Er; [|now apply (Hstop lo None)].
      injection H as ->. apply IH in Er as [g [s' [E [Hall [Hlo [Hhi Hk]]]]]].
      exists (String x g), s'. simpl in *. rewrite Ex, Hall, E.
      repeat split; auto; lia.
Qed.

(** Soundness of the matcher: a result can only come from the continuation,
    called where the expression has read a span. *)
Theorem rx_match_span (A : Type) (ic : bool) (r : regex) :
  forall (prev : option ascii) (s : string) (cs : caps)
         (k : option ascii -> string -> caps -> option A) (a : A),
    rx_match ic r prev s cs k = Some a ->
    exists p' s' cs',
      span ic r prev s cs p' s' cs' /\ k p' s' cs' = Some a.
Proof.
  induction r as [|l|c|r1 IH1 r2 IH2|r1 IH1 r2 IH2|r1 IH1|c lo hi|n r1 IH1| | |];
    intros prev s cs k a H; cbn [rx_match] in H.
  - eauto 10 using span.
  - destruct (lit_prefix ic l prev s) as [[p' s']|] eqn:E; [|discriminate].
    eauto 10 using span.
  - destruct s as [|x s]; [discriminate|].
    destruct (cls_mem ic c x) eqn:E; [|discriminate]. eauto 10 using span.
  - apply IH1 in H as [p1 [s1 [cs1 [H1 H]]]].
    apply IH2 in H as [p2 [s2 [cs2 [H2 H]]]]. eauto 10 using span.
  - unfold first_some in H.
    destruct (rx_match ic r1 prev s cs k) eqn:E.
    + injection H as ->. apply IH1 in E as [p' [s' [cs' [H1 H]]]].
      eauto 10 using span.
    + apply IH2 in H as [p' [s' [cs' [H2 H]]]]. eauto 10 using span.
  - unfold first_some in H.
    destruct (rx_match ic r1 prev s cs k) eqn:E.
    + injection H as ->. apply IH1 in E as [p' [s' [cs' [H1 H]]]].
      eauto 10 using span.
    + eauto 10 using span.
  - apply rep_match_inv in H as [g [s' [-> [Hall [Hlo [Hhi Hk]]]]]].
    eauto 10 using span.
  - apply IH1 in H as [p' [s' [cs' [H1 H]]]]. eauto 10 using span.
  - destruct prev; [discriminate|]. eauto 10 using span.
  - destruct (at_eol s) eqn:E; [|discriminate]. eauto 10 using span.
  - destruct (xorb _ _) eqn:E; [|discriminate]. eauto 10 using span.
Qed.

(** A match object comes from a span that starts somewhere in the text. *)
Lemma search_from_span (p : pattern) (s : string) :
  forall (prev : option ascii) (m : rmatch),
    search_from p prev s = Some m ->
    exists p0 s0 p',
      s = m_before m ++ s0
      /\ span (icase p) (rx p) p0 s0 [] p' (m_after m) (m_groups m)
      /\ m_text m = Str.consumed s0 (m_after m).
Proof.
  induction s as [|x s IH]; intros prev m H; cbn [search_from] in H.
  - destruct (match_here p prev "") as [[rest cs]|] eqn:E; [|discriminate].
    injection H as <-. unfold match_here in E.
    apply rx_match_span in E as [p' [s' [cs' [Hs E]]]].
    injection E as -> ->. exists prev, "", p'. simpl. auto.
  - destruct (match_here p prev (String x s)) as [[rest cs]|] eqn:E.
    + injection H as <-. unfold match_here in E.
      apply rx_match_span in E as [p' [s' [cs' [Hs E]]]].
      injection E as -> ->. exists prev, (String x s), p'. simpl. auto.
    + destruct (search_from p (Some x) s) as [m'|] eqn:E'; [|discriminate].
      injection H as <-. apply IH in E' as [p0 [s0 [p' [E1 [Hs E2]]]]].
      exists p0, s0, p'. simpl. rewrite <- E1. auto.
Qed.

(** Reading a span consumes a prefix of the text. *)
Lemma span_suffix (ic : bool) (r : regex) p s cs p' s' cs' :
  span ic r p s cs p' s' cs' -> exists g, s = g ++ s'.
Proof.
  induction 1;
    try (now exists ""); try (now eexists (String _ "")).
  - revert p s H. induction l as [|a l IHl]; intros p s H; simpl in H.
    + injection H as _ ->. now exists "".
    + destruct s as [|b s]; [discriminate|].
      destruct (chr_eq ic a b); [|discriminate].
      apply IHl in H as [g ->]. now exists (String b g).
  - destruct IHspan1 as [g1 ->]. destruct IHspan2 as [g2 ->].
    exists (g1 ++ g2). now rewrite StrFacts.append_assoc.
  - assumption.
  - assumption.
  - assumption.
  - now exists g.
  - assumption.
Qed.

End ReFacts.

(* ------------------------------------------------------------------ *)
(** ** The groups of the patterns

    Whenever one of the patterns matches, the groups the extractors read
    took part in the match, and a group written [(\d+)] is a non-empty run
    of decimal digits, on which [int] is the value of the digits. *)

Module PatternFacts.
Import Re ReFacts.

(** Every character of [s] satisfies [p]. *)
Fixpoint str_all (p : ascii -> bool) (s : string) : bool :=
  match s with
  | EmptyString => true
  | String c s' => p c && str_all p s'
  end.

Lemma digit_class (ic : bool) (x : ascii) :
  cls_mem ic Syntax.digit x = Chr.is_digit x.
Proof.
  destruct ic; [|unfold cls_mem, Syntax.digit, items_mem; simpl;
                 now rewrite !orb_false_r].
  destruct x as [[] [] [] [] [] [] [] []]; vm_compute; reflexivity.
Qed.

Lemma all_in_digit (ic : bool) (g : string) :
  all_in ic Syntax.digit g = str_all Chr.is_digit g.
Proof.
  induction g as [|x g IH]; [reflexivity|].
  cbn [all_in str_all]. now rewrite digit_class, IH.
Qed.

Ltac inv_span :=
  repeat match goal with
    | H : span _ ?r _ _ _ _ _ _ |- _ =>
        lazymatch r with
        | Seq _ _ => idtac | Alt _ _ => idtac | Opt _ => idtac
        | Grp _ _ => idtac | Rep _ _ _ => idtac | Lit _ => idtac
        | Cls _ => idtac | Eps => idtac | Bol => idtac | Eol => idtac
        | Wb => idtac
        end;
        inversion H; subst; clear H
    end.


Ltac finish_digits g :=
  split; [destruct g; [simpl in *; lia | discriminate]
         | now rewrite <- (all_in_digit true)].

Ltac open_span H :=
  apply search_from_span in H as (?p0 & ?s0 & ?p' & ?E & H & ?Et);
  unfold group; revert H;
  match goal with
  | |- span _ _ _ _ _ _ (m_after ?m) (m_groups ?m) -> _ =>
      generalize (m_groups m) (m_after m)
  end; intros ?cs ?rest H.

Lemma season_group (txt : string) (m : rmatch) :
  search PATTERNS.season txt = Some m ->
  exists ds, group m 1 = Some ds /\ ds <> "" /\ str_all Chr.is_digit ds = true.
Proof.
  intros H. open_span H.
  unfold PATTERNS.season, PATTERNS.season_word, Syntax.plus in H.
  cbn [rx icase] in H. inv_span.
  all: rewrite StrFacts.consumed_append; cbn [lookup Nat.eqb].
  all: eexists; (split; [reflexivity|]); finish_digits g.
Qed.

Lemma rstrip_none (p : ascii -> bool) (s : string) :
  str_all (fun c => negb (p c)) s = true -> Str.rstrip_by p s = s.
Proof.
  induction s as [|c s IH]; [reflexivity|]. simpl. intros H.
  apply andb_prop in H as [Hc Hs]. rewrite (IH Hs).
  destruct s; [|reflexivity]. apply negb_true_iff in Hc. now rewrite Hc.
Qed.

Lemma digit_not_blank (c : ascii) :
  Chr.is_digit c = true ->
  Chr.is_int_space c = false /\ c <> "-"%char /\ c <> "+"%char.
Proof.
  destruct c as [[] [] [] [] [] [] [] []]; vm_compute; intros H;
    try discriminate H; repeat split; discriminate.
Qed.

Lemma digits_go_some (s : string) :
  str_all Chr.is_digit s = true ->
  forall acc b, s <> "" \/ b = true ->
    exists v, PyInt.digits_go s acc b = Some v.
Proof.
  induction s as [|c s IH]; intros H acc b Hb.
  - destruct Hb as [Hb | ->]; [congruence|]. simpl. eauto.
  - simpl in H. apply andb_prop in H as [Hc Hs]. simpl. rewrite Hc.
    apply IH; auto.
Qed.

Lemma int_of_digit_run (ds : string) :
  ds <> "" -> str_all Chr.is_digit ds = true ->
  PyInt.of_str ds = Some (int_digits (Some ds)).
Proof.
  intros Hne Hall.
  assert (Hsp : str_all (fun c => negb (Chr.is_int_space c)) ds = true).
  { clear Hne. induction ds as [|c ds IH]; [reflexivity|]. simpl in *.
    apply andb_prop in Hall as [Hc Hs].
    destruct (digit_not_blank c Hc) as [-> _]. simpl. now apply IH. }
  unfold PyInt.of_str, int_digits, text.
  destruct (digits_go_some Hall 0%Z (b := false) (or_introl Hne)) as [v Hv].
  destruct ds as [|c ds]; [congruence|].
  simpl in Hall. apply andb_prop in Hall as [Hc _].
  destruct (digit_not_blank c Hc) as [Hb [Hm Hp]].
  cbn [Str.lstrip_by]. rewrite Hb, (rstrip_none _ _ Hsp), Hv.
  destruct c as [[] [] [] [] [] [] [] []]; try reflexivity; congruence.
Qed.

Ltac digits_case :=
  rewrite StrFacts.consumed_append; cbn [lookup Nat.eqb];
  eexists; (split; [reflexivity|]);
  match goal with
  | Hlen : 1 <= String.length ?g |- _ => finish_digits g
  end.

Lemma season_ordinal_num_group (txt : string) (m : rmatch) :
  search PATTERNS.season_ordinal_num txt = Some m ->
  exists ds, group m 1 = Some ds /\ ds <> "" /\ str_all Chr.is_digit ds = true.
Proof.
  intros H. open_span H.
  unfold PATTERNS.season_ordinal_num, PATTERNS.ordinal_suffix, Syntax.plus in H.
  cbn [rx icase] in H. inv_span; digits_case.
Qed.

Lemma season_part_group (txt : string) (m : rmatch) :
  search PATTERNS.season_part txt = Some m ->
  exists ds, group m 1 = Some ds /\ ds <> "" /\ str_all Chr.is_digit ds = true.
Proof.
  intros H. open_span H.
  unfold PATTERNS.season_part, Syntax.plus in H.
  cbn [rx icase] in H. inv_span; digits_case.
Qed.

Lemma season_cour_group (txt : string) (m : rmatch) :
  search PATTERNS.season_cour txt = Some m ->
  exists ds, group m 1 = Some ds /\ ds <> "" /\ str_all Chr.is_digit ds = true.
Proof.
  intros H. open_span H.
  unfold PATTERNS.season_cour, Syntax.plus in H.
  cbn [rx icase] in H. inv_span; digits_case.
Qed.

(** A literal reads a text of its own length that equals it, up to case
    under [IGNORECASE]. *)
Lemma lit_prefix_inv (ic : bool) (l : string) :
  forall p s p' s',
    lit_prefix ic l p s = Some (p', s') ->
    exists g, s = g ++ s'
              /\ (if ic then Str.lower g = Str.lower l else g = l).
Proof.
  induction l as [|a l IH]; intros p s p' s' H; simpl in H.
  - injection H as _ ->. exists "". now destruct ic.
  - destruct s as [|b s]; [discriminate|].
    destruct (chr_eq ic a b) eqn:E; [|discriminate].
    apply IH in H as [g [-> Hg]]. exists (String b g). split; [reflexivity|].
    unfold chr_eq in E. destruct ic; simpl.
    + unfold Chr.eqb_icase in E. apply Ascii.eqb_eq in E.
      unfold Str.lower in *. simpl. now rewrite Hg, E.
    + apply Ascii.eqb_eq in E. now rewrite Hg, E.
Qed.


Ltac nonempty g := destruct g; [simpl in *; lia | discriminate].

Lemma season_roman_group (txt : string) (m : rmatch) :
  search PATTERNS.season_roman txt = Some m ->
  exists g, group m 1 = Some g /\ g <> "".
Proof.
  intros H. open_span H.
  unfold PATTERNS.season_roman, Syntax.plus in H.
  cbn [rx icase] in H. inv_span.
  rewrite StrFacts.consumed_append; cbn [lookup Nat.eqb].
  eexists; split; [reflexivity|].
  match goal with Hlen : 1 <= String.length ?g |- _ => nonempty g end.
Qed.

Lemma release_group_start_group (title : string) (m : rmatch) :
  search PATTERNS.release_group_start title = Some m ->
  exists g, group_or (group m 1) (group m 2) = Some g /\ g <> "".
Proof.
  intros H. open_span H.
  unfold PATTERNS.release_group_start, Syntax.plus in H.
  cbn [rx icase] in H. inv_span.
  all: rewrite StrFacts.consumed_append; cbn [lookup Nat.eqb].
  all: match goal with Hlen : 1 <= String.length ?g |- _ =>
         exists g; destruct g; [simpl in *; lia|]
       end.
  all: split; [reflexivity | discriminate].
Qed.

Lemma release_group_end_group (title : string) (m : rmatch) :
  search PATTERNS.release_group_end title = Some m ->
  exists g, group m 1 = Some g /\ g <> "".
Proof.
  intros H. open_span H.
  unfold PATTERNS.release_group_end, Syntax.plus, Syntax.upto in H.
  cbn [rx icase] in H. inv_span.
  all: rewrite StrFacts.consumed_append; cbn [lookup Nat.eqb].
  all: eexists; (split; [reflexivity|]).
  all: match goal with Hlen : 1 <= String.length ?g |- ?g <> _ => nonempty g end.
Qed.



End PatternFacts.

(* ------------------------------------------------------------------ *)
(** ** Claims about the extractors *)

(** A run without the closing bracket lies in the negated set. *)
Lemma none_of_all (c : ascii) (g : string) :
  Str.contains (String c "") g = false ->
  ReFacts.all_in false (Re.Syntax.none_of [c]) g = true.
Proof.
  induction g as [|x g IH]; [reflexivity|].
  intros H. cbn [Str.contains Str.drop_prefix] in H.
  cbn [ReFacts.all_in Re.cls_mem Re.Syntax.none_of List.map xorb].
  unfold Re.items_mem. cbn [existsb Re.item_mem andb orb].
  rewrite Ascii.eqb_sym.
  destruct (Ascii.eqb c x); [discriminate H|].
  simpl. apply IH. exact H.
Qed.


Lemma match_square (g rest : string) :
  g <> "" -> Str.contains "]" g = false ->
  Re.match_here PATTERNS.release_group_start None ("[" ++ g ++ "]" ++ rest)
  = Some (rest, [(1, g)]).
Proof.
  intros Hne Hno.
  unfold Re.match_here, PATTERNS.release_group_start, Re.Syntax.plus.
  cbn [Re.icase Re.rx Re.rx_match append Re.lit_prefix Re.chr_eq].
  rewrite Ascii.eqb_refl. cbv iota.
  change (g ++ String "]" rest) with (g ++ "]" ++ rest).
  erewrite ReFacts.rep_match_run with (a := (rest, [(1, g)])).
  - reflexivity.
  - now apply none_of_all.
  - reflexivity.
  - destruct g; [congruence | simpl; lia].
  - cbn [append]. rewrite Ascii.eqb_refl.
    change (String "]" rest) with ("]" ++ rest).
    now rewrite StrFacts.consumed_append.
Qed.

Lemma match_round (g rest : string) :
  g <> "" -> Str.contains ")" g = false ->
  Re.match_here PATTERNS.release_group_start None ("(" ++ g ++ ")" ++ rest)
  = Some (rest, [(2, g)]).
Proof.
  intros Hne Hno.
  unfold Re.match_here, PATTERNS.release_group_start, Re.Syntax.plus.
  cbn [Re.icase Re.rx Re.rx_match append Re.lit_prefix Re.chr_eq].
  rewrite Ascii.eqb_refl.
  replace (Ascii.eqb "[" "(") with false by reflexivity. cbv iota.
  cbn [Re.first_some].
  change (g ++ String ")" rest) with (g ++ ")" ++ rest).
  erewrite ReFacts.rep_match_run with (a := (rest, [(2, g)])).
  - reflexivity.
  - now apply none_of_all.
  - reflexivity.
  - destruct g; [congruence | simpl; lia].
  - cbn [append]. rewrite Ascii.eqb_refl.
    change (String ")" rest) with (")" ++ rest).
    now rewrite StrFacts.consumed_append.
Qed.

Lemma search_here (p : Re.pattern) (s rest : string) (cs : Re.caps) :
  Re.match_here p None s = Some (rest, cs) ->
  Re.search p s = Some (Re.RMatch "" (Str.consumed s rest) rest cs).
Proof.
  unfold Re.search. intros H. destruct s; cbn [Re.search_from]; now rewrite H.
Qed.

Lemma release_group_square (g rest : string) :
  g <> "" -> Str.contains "]" g = false ->
  extract_release_group ("[" ++ g ++ "]" ++ rest) = g.
Proof.
  intros Hne Hno. unfold extract_release_group.
  rewrite (search_here _ _ (match_square rest Hne Hno)).
  unfold Re.group. simpl. destruct g; [congruence | reflexivity].
Qed.

Lemma release_group_round (g rest : string) :
  g <> "" -> Str.contains ")" g = false ->
  extract_release_group ("(" ++ g ++ ")" ++ rest) = g.
Proof.
  intros Hne Hno. unfold extract_release_group.
  rewrite (search_here _ _ (match_round rest Hne Hno)).
  unfold Re.group. simpl. destruct g; [congruence | reflexivity].
Qed.

(** The six strategies of the season resolver, in their order. *)
Definition season_strategies : list (string -> option Z) :=
  [ (fun txt => option_map (fun m => int_digits (Re.group m 1))
                  (Re.search PATTERNS.season txt));
    (fun txt => option_map (fun m => int_digits (Re.group m 1))
                  (Re.search PATTERNS.season_ordinal_num txt));
    (fun txt => option_map (fun m => _parse_ordinal_word (text (Re.group m 1)))
                  (Re.search PATTERNS.season_ordinal_word txt));
    (fun txt => option_map (fun m => _parse_roman_numeral (text (Re.group m 1)))
                  (Re.search PATTERNS.season_roman txt));
    (fun txt => option_map (fun m => int_digits (Re.group m 1))
                  (Re.search PATTERNS.season_part txt));
    (fun txt => option_map (fun m => int_digits (Re.group m 1))
                  (Re.search PATTERNS.season_cour txt)) ].

(** First match wins. *)
Fixpoint first_match {X Y : Type} (fs : list (X -> option Y)) (x : X)
  : option Y :=
  match fs with
  | [] => None
  | f :: fs' => match f x with Some y => Some y | None => first_match fs' x end
  end.

(** C5. The season resolver returns the result of the first of its six
    strategies that matches, the [S<digits>] / [Season <digits>] form being
    the first, so that form decides whenever it occurs, whatever "Part" or
    "Cour" say; [extract_season] uses the title's number if there is one,
    else the description's, else 1.  "Anime S01 Part 2" is season 1,
    "Anime 2nd Season - 01" season 2, "Anime Season III" season 3.  In the
    four strategies that read digits the group is always there and the
    number returned is [int] of it. *)
Theorem C5_season_priority :
  (forall txt, _extract_season_number txt = first_match season_strategies txt)
  /\ (forall txt m,
        Re.search PATTERNS.season txt = Some m ->
        _extract_season_number txt = Some (int_digits (Re.group m 1)))
  /\ (forall title descr n,
        _extract_season_number title = Some n ->
        extract_season title descr = "Season " ++ PyInt.to_str n)
  /\ (forall title descr n,
        _extract_season_number title = None ->
        _extract_season_number descr = Some n ->
        extract_season title descr = "Season " ++ PyInt.to_str n)
  /\ (forall title descr,
        _extract_season_number title = None ->
        _extract_season_number descr = None ->
        extract_season title descr = "Season 1")
  /\ extract_season "Anime S01 Part 2" "" = "Season 1"
  /\ extract_season "Anime 2nd Season - 01" "" = "Season 2"
  /\ extract_season "Anime Season III" "" = "Season 3"
  /\ extract_season "Anime Part 2" "" = "Season 2"
  /\ extract_season "Anime - 01" "This is Season 3 of the anime" = "Season 3"
  /\ extract_season "Anime S02E01" "Season 5 content" = "Season 2"
  /\ (forall p,
        In p [PATTERNS.season; PATTERNS.season_ordinal_num;
              PATTERNS.season_part; PATTERNS.season_cour] ->
        forall txt m,
          Re.search p txt = Some m ->
          exists ds,
            Re.group m 1 = Some ds
            /\ PyInt.of_str ds = Some (int_digits (Re.group m 1))).
Proof.
  split.
  { intros txt. unfold _extract_season_number, season_strategies.
    cbn [first_match].
    destruct (Re.search PATTERNS.season txt); [reflexivity|].
    destruct (Re.search PATTERNS.season_ordinal_num txt); [reflexivity|].
    destruct (Re.search PATTERNS.season_ordinal_word txt); [reflexivity|].
    destruct (Re.search PATTERNS.season_roman txt); [reflexivity|].
    destruct (Re.search PATTERNS.season_part txt); [reflexivity|].
    destruct (Re.search PATTERNS.season_cour txt); reflexivity. }
  split.
  { intros txt m H. unfold _extract_season_number. now rewrite H. }
  split; [intros title descr n H; unfold extract_season; now rewrite H|].
  split; [intros title descr n H1 H2; unfold extract_season;
          now rewrite H1, H2|].
  split; [intros title descr H1 H2; unfold extract_season;
          now rewrite H1, H2|].
  do 6 (split; [vm_compute; reflexivity|]).
  intros p Hp txt m H.
  assert (Hg : exists ds, Re.group m 1 = Some ds /\ ds <> ""
                          /\ PatternFacts.str_all Chr.is_digit ds = true).
  { simpl in Hp. destruct Hp as [<-|[<-|[<-|[<-|[]]]]].
    - now apply PatternFacts.season_group with txt.
    - now apply PatternFacts.season_ordinal_num_group with txt.
    - now apply PatternFacts.season_part_group with txt.
    - now apply PatternFacts.season_cour_group with txt. }
  destruct Hg as [ds [E [Hne Hd]]]. exists ds. rewrite E.
  split; [reflexivity | now apply PatternFacts.int_of_digit_run].
Qed.

(** C5 on the title "Anime S01 Part 2": the standard form is found, so the
    resolver answers 1. *)
Lemma C5_season_priority_witness :
  _extract_season_number "Anime S01 Part 2" = Some 1%Z
  /\ extract_season "Anime S01 Part 2" "Season 5 content" = "Season 1".
Proof.
  split.
  - destruct C5_season_priority as [_ [H _]].
    exact (H "Anime S01 Part 2"
             (Re.RMatch "Anime " "S01" " Part 2" [(1, "01")]) eq_refl).
  - destruct C5_season_priority as [_ [_ [H _]]].
    exact (H "Anime S01 Part 2" "Season 5 content" 1%Z eq_refl).
Defined.

(** C6. In [extract_metadata_from_detail] a submitter that is present and
    is not "Anonymous" is the release group; with the submitter "Anonymous"
    (or empty, or missing) the release group is extracted from the title: a
    leading [[Name]] or [(Name)] is returned as it stands, else the trailing
    [-TOKEN], else "Unknown". *)
Theorem C6_release_group_resolution :
  (forall d : detail_dict,
     let subm := dict_get d "submitter" "Anonymous" in
     subm <> "" -> subm <> "Anonymous" ->
     release_group (extract_metadata_from_detail d) = subm)
  /\ (forall d : detail_dict,
        let subm := dict_get d "submitter" "Anonymous" in
        subm = "Anonymous" \/ subm = "" ->
        release_group (extract_metadata_from_detail d)
        = extract_release_group (dict_get d "title" ""))
  /\ (forall g rest,
        g <> "" -> Str.contains "]" g = false ->
        extract_release_group ("[" ++ g ++ "]" ++ rest) = g)
  /\ (forall g rest,
        g <> "" -> Str.contains ")" g = false ->
        extract_release_group ("(" ++ g ++ ")" ++ rest) = g)
  /\ (forall title,
        Re.search PATTERNS.release_group_start title = None ->
        extract_release_group title
        = match Re.search PATTERNS.release_group_end title with
          | Some m => text (Re.group m 1)
          | None => "Unknown"
          end)
  /\ extract_release_group "Anime.S01E01-RELEASE.mkv" = "RELEASE"
  /\ extract_release_group "[StartGroup] Anime - 01 -ENDGROUP" = "StartGroup"
  /\ extract_release_group "Just an anime title" = "Unknown"
  /\ release_group
       (extract_metadata_from_detail
          [("title", "[GroupName] Anime - 01"); ("submitter", "Anonymous")])
     = "GroupName"
  /\ release_group
       (extract_metadata_from_detail
          [("title", "[GroupName] Anime - 01");
           ("submitter", "TrustedUploader")])
     = "TrustedUploader"
  /\ (forall title m,
        Re.search PATTERNS.release_group_start title = Some m ->
        exists g,
          g <> "" /\ group_or (Re.group m 1) (Re.group m 2) = Some g
          /\ extract_release_group title = g)
  /\ (forall title m,
        Re.search PATTERNS.release_group_start title = None ->
        Re.search PATTERNS.release_group_end title = Some m ->
        exists g,
          g <> "" /\ Re.group m 1 = Some g /\ extract_release_group title = g).
Proof.
  split.
  { intros d subm H1 H2. unfold extract_metadata_from_detail.
    cbn [release_group]. fold subm.
    destruct subm as [|c s]; [congruence|]. cbn [Str.truthy andb].
    destruct (String.eqb_spec (String c s) "Anonymous"); [contradiction|].
    reflexivity. }
  split.
  { intros d subm H. unfold extract_metadata_from_detail.
    cbn [release_group]. fold subm. destruct H as [-> | ->]; reflexivity. }
  split; [intros; now apply release_group_square|].
  split; [intros; now apply release_group_round|].
  split.
  { intros title H. unfold extract_release_group. now rewrite H. }
  do 5 (split; [vm_compute; reflexivity|]).
  split.
  - intros title m H.
    destruct (PatternFacts.release_group_start_group _ H) as [g [E Hne]].
    exists g. unfold extract_release_group. rewrite H, E. auto.
  - intros title m H0 H.
    destruct (PatternFacts.release_group_end_group _ H) as [g [E Hne]].
    exists g. unfold extract_release_group. rewrite H0, H, E. auto.
Qed.

(** C6 on the two detail records of the example. *)
Lemma C6_release_group_resolution_witness :
  release_group
    (extract_metadata_from_detail
       [("title", "[GroupName] Anime - 01"); ("submitter", "TrustedUploader")])
  = "TrustedUploader"
  /\ release_group
       (extract_metadata_from_detail
          [("title", "[GroupName] Anime - 01"); ("submitter", "Anonymous")])
     = extract_release_group "[GroupName] Anime - 01"
  /\ extract_release_group ("[" ++ "GroupName" ++ "]" ++ " Anime - 01")
     = "GroupName".
Proof.
  destruct C6_release_group_resolution as [H1 [H2 [H3 _]]].
  split; [|split].
  - apply (H1 [("title", "[GroupName] Anime - 01");
               ("submitter", "TrustedUploader")]); discriminate.
  - apply (H2 [("title", "[GroupName] Anime - 01");
               ("submitter", "Anonymous")]). now left.
  - apply H3; [discriminate | reflexivity].
Defined.

(** C8. On the empty list the grouping returns the empty list, whatever the
    fallback name; a detail record with empty title, description and
    category and the submitter "Anonymous" yields the defaults. *)
Theorem C8_empty_inputs :
  (forall n : string, group_torrents_deterministic [] n = Some ([], []))
  /\ forall d : detail_dict,
       dict_get d "title" "" = "" ->
       dict_get d "description" "" = "" ->
       dict_get d "category" "" = "" ->
       dict_get d "submitter" "Anonymous" = "Anonymous" ->
       let m := extract_metadata_from_detail d in
       anime_name m = "Unknown" /\ season m = "Season 1" /\ episode m = ""
       /\ quality m = "Unknown" /\ release_group m = "Unknown"
       /\ audio_language m = "Japanese" /\ subtitle_language m = "Unknown"
       /\ description m = "".
Proof.
  split; [reflexivity|].
  intros d H1 H2 H3 H4 m. subst m. unfold extract_metadata_from_detail.
  rewrite H1, H2, H3, H4. vm_compute. repeat split.
Qed.

(** C8 on the record that holds the four fields, and on the record that
    holds none. *)
Lemma C8_empty_inputs_witness :
  let m :=
    extract_metadata_from_detail
      [("title", ""); ("submitter", "Anonymous"); ("category", "");
       ("description", "")] in
  anime_name m = "Unknown" /\ season m = "Season 1" /\ episode m = ""
  /\ quality m = "Unknown" /\ release_group m = "Unknown"
  /\ audio_language m = "Japanese" /\ subtitle_language m = "Unknown"
  /\ description m = "".
Proof.
  exact (proj2 C8_empty_inputs
           [("title", ""); ("submitter", "Anonymous"); ("category", "");
            ("description", "")] eq_refl eq_refl eq_refl eq_refl).
Defined.








(* ================================================================== *)
(** * Further properties of the code *)

(* ------------------------------------------------------------------ *)
(** ** Sums and counts over the groups *)

Module CountFacts.

(** [sum(l)] *)
Definition zsum (l : list Z) : Z := fold_left Z.add l 0%Z.

Lemma fold_add_acc (l : list Z) (a : Z) :
  fold_left Z.add l a = (a + zsum l)%Z.
Proof.
  unfold zsum. revert a. induction l as [|x l IH]; intros a; simpl; [lia|].
  rewrite (IH (a + x)%Z), (IH x). lia.
Qed.

Lemma zsum_cons (x : Z) (l : list Z) : zsum (x :: l) = (x + zsum l)%Z.
Proof. unfold zsum at 1. simpl. apply fold_add_acc. Qed.

Lemma zsum_app (a b : list Z) : zsum (a ++ b) = (zsum a + zsum b)%Z.
Proof.
  induction a as [|x a IH]; [reflexivity|].
  simpl app. rewrite !zsum_cons, IH. lia.
Qed.

Lemma zsum_perm (a b : list Z) : Permutation a b -> zsum a = zsum b.
Proof.
  induction 1; rewrite ?zsum_cons; lia.
Qed.

Lemma zsum_concat (f : Torrent -> Z) (ls : list (list Torrent)) :
  zsum (map f (List.concat ls)) = zsum (map (fun l => zsum (map f l)) ls).
Proof.
  induction ls as [|l ls IH]; [reflexivity|].
  simpl. rewrite map_app, zsum_app, zsum_cons, IH. reflexivity.
Qed.

Lemma length_concat (ls : list (list Torrent)) :
  List.length (List.concat ls)
  = fold_right Nat.add 0 (map (@List.length Torrent) ls).
Proof.
  induction ls as [|l ls IH]; [reflexivity|].
  simpl. now rewrite length_app, IH.
Qed.

Lemma ensure_metadata_seeders (n : string) (ts : list Torrent) :
  map seeders (map (ensure_metadata n) ts) = map seeders ts.
Proof.
  rewrite map_map. apply map_ext. intros t. unfold ensure_metadata.
  now destruct (metadata t).
Qed.

(** A filtered list that begins with [x]: [x] is the first element of the
    list that passes. *)
Lemma filter_head (A : Type) (p : A -> bool) (l : list A) (x : A)
    (r : list A) :
  filter p l = x :: r ->
  exists pre post,
    l = (pre ++ x :: post)%list /\ forallb (fun y => negb (p y)) pre = true
    /\ p x = true /\ r = filter p post.
Proof.
  induction l as [|y l IH]; simpl; [discriminate|].
  destruct (p y) eqn:E.
  - intros H. injection H as -> <-. exists [], l. auto.
  - intros H. destruct (IH H) as [pre [post [-> [Hp [Hx Hr]]]]].
    exists (y :: pre), post. simpl. rewrite E. auto.
Qed.

End CountFacts.

Import CountFacts.

(** X1. Grouping keeps the seeders: the [total_seeders] of the returned
    groups add up to the seeder counts of the input torrents, and the
    groups' sizes add up to the number of input torrents. *)
Theorem X1_seeders_conserved (ts : list Torrent) (n : string) :
  exists ts' gs,
    group_torrents_deterministic ts n = Some (ts', gs)
    /\ zsum (map total_seeders gs) = zsum (map seeders ts)
    /\ fold_right Nat.add 0 (map (fun g => List.length (torrents g)) gs)
       = List.length ts.
Proof.
  destruct ts as [|t0 ts]; [now exists [], []|].
  destruct (@grouped (t0 :: ts) n) as [gs0 [Hd Hg]]; [discriminate|].
  set (ts' := map (ensure_metadata n) (t0 :: ts)) in *.
  exists ts', (sort_desc total_seeders gs0). split; [exact Hg|].
  pose proof (sort_desc_perm total_seeders gs0) as Hp.
  pose proof (discovered_partition Hd) as Hc. split.
  - rewrite (zsum_perm (Permutation_map total_seeders Hp)).
    rewrite <- (ensure_metadata_seeders n (t0 :: ts)). fold ts'.
    rewrite <- (zsum_perm (Permutation_map seeders Hc)).
    rewrite zsum_concat, map_map. reflexivity.
  - transitivity (List.length ts'); [|apply length_map].
    rewrite <- (Permutation_length Hc), length_concat, map_map.
    assert (Hq : Permutation
                   (map (fun g => List.length (torrents g))
                        (sort_desc total_seeders gs0))
                   (map (fun g => List.length (torrents g)) gs0))
      by now apply Permutation_map.
    clear -Hq. induction Hq; simpl; lia.
Qed.

(** The key of a group: the key of its first torrent. *)
Definition key_of_group (g : TorrentGroup) : string :=
  match torrents g with
  | t :: _ => key_of t
  | [] => EmptyString
  end.

(** X2. No returned group is empty, all torrents of a group carry the
    group's key, no two returned groups have the same key, and there are at
    most as many groups as input torrents. *)
Theorem X2_groups_by_distinct_keys (ts : list Torrent) (n : string) :
  exists ts' gs,
    group_torrents_deterministic ts n = Some (ts', gs)
    /\ (forall g, In g gs -> torrents g <> [])
    /\ (forall g t, In g gs -> In t (torrents g) -> key_of t = key_of_group g)
    /\ NoDup (map key_of_group gs)
    /\ List.length gs <= List.length ts.
Proof.
  destruct ts as [|t0 ts].
  { exists [], []. simpl. repeat split; try tauto; try constructor. }
  destruct (@grouped (t0 :: ts) n) as [gs0 [Hd Hg]]; [discriminate|].
  set (ts' := map (ensure_metadata n) (t0 :: ts)) in *.
  exists ts', (sort_desc total_seeders gs0). split; [exact Hg|].
  pose proof (sort_desc_perm total_seeders gs0) as Hp.
  assert (Hkey : forall g, In g gs0 ->
            torrents g <> [] /\ In (key_of_group g) (map key_of ts')
            /\ torrents g = members (key_of_group g) ts').
  { intros g Hin. destruct (discovered_members Hd g Hin) as [k [Hk E]].
    pose proof (members_some _ _ Hk) as Hne. rewrite <- E in Hne.
    assert (Ek : key_of_group g = k).
    { unfold key_of_group. destruct (torrents g) as [|t r] eqn:Et;
        [congruence|].
      assert (Ht : In t (members k ts')) by (rewrite <- E; now left).
      now apply members_key in Ht. }
    rewrite Ek. auto. }
  assert (Hmap : map key_of_group gs0 = first_seen (map key_of ts')).
  { pose proof (discovered_torrents Hd) as Ht. clearbody ts'.
    revert Hkey Ht. generalize (first_seen (map key_of ts')) as ks.
    clear. induction gs0 as [|g gs IH]; intros ks Hkey Ht.
    - destruct ks; [reflexivity | discriminate].
    - destruct ks as [|k ks]; [discriminate|]. cbn [map] in Ht.
      injection Ht as Hg Hrest. cbn [map]. f_equal.
      + destruct (Hkey g (or_introl eq_refl)) as [Hne [_ E]].
        unfold key_of_group in *. destruct (torrents g) as [|t r];
          [congruence|].
        assert (Hin : In t (members k ts')) by (rewrite <- Hg; now left).
        now apply members_key in Hin.
      + apply IH; [|exact Hrest]. intros g' Hg'. apply Hkey. now right. }
  split; [intros g Hin; apply Hkey; now apply (Permutation_in _ Hp)|].
  split.
  { intros g t Hin Ht. apply (Permutation_in _ Hp) in Hin.
    destruct (Hkey g Hin) as [_ [_ E]]. rewrite E in Ht.
    now apply members_key in Ht. }
  split.
  { apply (Permutation_NoDup (Permutation_map key_of_group
                               (Permutation_sym Hp))).
    rewrite Hmap. apply first_seen_nodup. }
  rewrite (Permutation_length Hp).
  rewrite <- (length_map key_of_group), Hmap.
  transitivity (List.length (map key_of ts'));
    [|unfold ts'; now rewrite !length_map].
  generalize (map key_of ts') as ks. clear.
  induction ks as [|k ks IH]; simpl; [lia|].
  pose proof (filter_length_le
                (fun k' => negb (String.eqb k' k)) (first_seen ks)). lia.
Qed.

(** X3. The name and the quality of a group are those of the first input
    torrent that carries the group's key. *)
Theorem X3_group_named_after_first_member (ts : list Torrent) (n : string) :
  exists ts' gs,
    group_torrents_deterministic ts n = Some (ts', gs)
    /\ forall g, In g gs ->
         exists t0 m0 pre post,
           ts' = (pre ++ t0 :: post)%list
           /\ metadata t0 = Some m0
           /\ (forall t, In t pre -> key_of t <> key_of t0)
           /\ hd_error (torrents g) = Some t0
           /\ g_name g = group_name m0 /\ g_quality g = quality m0.
Proof.
  destruct ts as [|t0 ts].
  { exists [], []. split; [reflexivity|]. intros g []. }
  destruct (@grouped (t0 :: ts) n) as [gs0 [Hd Hg]]; [discriminate|].
  set (ts' := map (ensure_metadata n) (t0 :: ts)) in *.
  exists ts', (sort_desc total_seeders gs0). split; [exact Hg|].
  intros g Hin.
  apply (Permutation_in _ (sort_desc_perm total_seeders gs0)) in Hin.
  pose proof (discovered_built Hd) as Hb. rewrite Forall_forall in Hb.
  destruct (build_group_name _ (Hb g Hin)) as [t1 [m1 [Hh [Hm [Hn Hq]]]]].
  destruct (discovered_members Hd g Hin) as [k [_ E]].
  destruct (torrents g) as [|x r] eqn:Et; [discriminate|].
  injection Hh as ->. unfold members in E. symmetry in E.
  destruct (filter_head _ _ E) as [pre [post [Hl [Hpre [Hx _]]]]].
  exists t1, m1, pre, post. repeat split; auto.
  intros t Ht. rewrite forallb_forall in Hpre. specialize (Hpre t Ht).
  apply String.eqb_eq in Hx. rewrite Hx.
  apply negb_true_iff, String.eqb_neq in Hpre. exact Hpre.
Qed.

(** X4. When every input torrent already carries metadata the fallback
    name plays no part: the call leaves the list as it is and returns the
    same groups for any two fallback names. *)
Theorem X4_fallback_name_unused (ts : list Torrent) (n1 n2 : string) :
  (forall t, In t ts -> metadata t <> None) ->
  group_torrents_deterministic ts n1 = group_torrents_deterministic ts n2
  /\ exists gs, group_torrents_deterministic ts n1 = Some (ts, gs).
Proof.
  intros H.
  assert (Hall : forallb has_metadata ts = true).
  { apply forallb_forall. intros t Ht. specialize (H t Ht).
    unfold has_metadata. now destruct (metadata t). }
  destruct ts as [|t0 ts]; [split; [reflexivity | now exists []]|].
  destruct (@grouped (t0 :: ts) n1) as [gs1 [Hd1 Hg1]]; [discriminate|].
  destruct (@grouped (t0 :: ts) n2) as [gs2 [Hd2 Hg2]]; [discriminate|].
  rewrite (ensure_fixed n1 _ Hall) in Hd1, Hg1.
  rewrite (ensure_fixed n2 _ Hall) in Hd2, Hg2.
  rewrite (discovered_functional Hd1 Hd2) in Hg1.
  split; [congruence | eauto].
Qed.

(** X4 on the three torrents of the seeders example. *)
Lemma X4_fallback_name_unused_witness :
  group_torrents_deterministic seeders_example "Test Anime"
  = group_torrents_deterministic seeders_example "Another Name"
  /\ exists gs,
       group_torrents_deterministic seeders_example "Test Anime"
       = Some (seeders_example, gs).
Proof.
  apply (@X4_fallback_name_unused seeders_example).
  intros t Ht. simpl in Ht.
  destruct Ht as [<-|[<-|[<-|[]]]]; discriminate.
Defined.

(* ------------------------------------------------------------------ *)
(** ** Integers and their decimal text, there and back *)

Module IntFacts.

Lemma uint_digits (d : Decimal.uint) :
  Str.all Chr.is_digit (NilEmpty.string_of_uint d) = true.
Proof. induction d; simpl; auto. Qed.

Lemma digits_go_acc (d : Decimal.uint) (acc : positive) :
  PyInt.digits_go (NilEmpty.string_of_uint d) (Z.pos acc) true
  = Some (Z.pos (Pos.of_uint_acc d acc)).
Proof.
  revert acc. induction d; intros acc; cbn [NilEmpty.string_of_uint];
    [reflexivity | ..];
    cbn [PyInt.digits_go];
    match goal with
    | |- context [Chr.is_digit ?c] =>
        replace (Chr.is_digit c) with true by reflexivity
    end; cbv iota; cbn [Pos.of_uint_acc];
    match goal with
    | |- context [PyInt.digit_val ?c] =>
        let v := eval vm_compute in (PyInt.digit_val c) in
        change (PyInt.digit_val c) with v
    end;
    match goal with
    | |- PyInt.digits_go _ ?v true = Some (Z.pos (Pos.of_uint_acc _ ?a)) =>
        replace v with (Z.pos a)
          by (rewrite ?Pos2Z.inj_add, ?Pos2Z.inj_mul; lia)
    end; apply IHd.
Qed.

Lemma digits_go_zero (d : Decimal.uint) (b : bool) :
  d <> Decimal.Nil \/ b = true ->
  PyInt.digits_go (NilEmpty.string_of_uint d) 0 b
  = Some (Z.of_N (Pos.of_uint d)).
Proof.
  revert b. induction d; intros b Hb; cbn [NilEmpty.string_of_uint].
  - destruct Hb as [Hb | ->]; [congruence | reflexivity].
  - cbn [PyInt.digits_go].
    replace (Chr.is_digit "0") with true by reflexivity. cbv iota.
    change (10 * 0 + PyInt.digit_val "0")%Z with 0%Z.
    apply IHd. now right.
  - apply (digits_go_acc d 1).
  - apply (digits_go_acc d 2).
  - apply (digits_go_acc d 3).
  - apply (digits_go_acc d 4).
  - apply (digits_go_acc d 5).
  - apply (digits_go_acc d 6).
  - apply (digits_go_acc d 7).
  - apply (digits_go_acc d 8).
  - apply (digits_go_acc d 9).
Qed.

Lemma pos_to_str (p : positive) :
  PyInt.to_str (Z.pos p) = NilEmpty.string_of_uint (Pos.to_uint p).
Proof.
  unfold PyInt.to_str. simpl.
  pose proof (DecimalPos.Unsigned.to_uint_nonnil p) as H.
  unfold NilZero.string_of_uint. destruct (Pos.to_uint p); congruence.
Qed.

Lemma pos_digits_value (p : positive) :
  PyInt.digits_go (NilEmpty.string_of_uint (Pos.to_uint p)) 0 false
  = Some (Z.pos p).
Proof.
  rewrite digits_go_zero
    by (left; apply DecimalPos.Unsigned.to_uint_nonnil).
  now rewrite DecimalPos.Unsigned.of_to.
Qed.

(** The text of a number that is not negative is a non-empty run of
    digits. *)
Lemma to_str_digits (n : Z) :
  (0 <= n)%Z ->
  PyInt.to_str n <> "" /\ Str.all Chr.is_digit (PyInt.to_str n) = true.
Proof.
  intros H. destruct n as [|p|p]; [split; [discriminate | reflexivity] | | lia].
  rewrite pos_to_str. split; [|apply uint_digits].
  pose proof (DecimalPos.Unsigned.to_uint_nonnil p) as Hn.
  destruct (Pos.to_uint p); simpl; congruence.
Qed.

Lemma all_weaken (p q : ascii -> bool) (s : string) :
  (forall c, p c = true -> q c = true) ->
  Str.all p s = true -> Str.all q s = true.
Proof.
  intros H. induction s as [|c s IH]; simpl; [reflexivity|].
  intros Hs. apply andb_prop in Hs as [Hc Hs]. now rewrite (H c Hc), IH.
Qed.

Lemma rstrip_keeps (p : ascii -> bool) (s : string) :
  Str.all (fun c => negb (p c)) s = true -> Str.rstrip_by p s = s.
Proof.
  induction s as [|c s IH]; [reflexivity|]. simpl. intros H.
  apply andb_prop in H as [Hc Hs]. rewrite (IH Hs).
  destruct s; [|reflexivity]. apply negb_true_iff in Hc. now rewrite Hc.
Qed.

Lemma digit_chars (c : ascii) :
  Chr.is_digit c = true ->
  Chr.is_int_space c = false /\ Chr.is_space c = false
  /\ c <> "-"%char /\ c <> "+"%char /\ c <> "E"%char
  /\ (0 <= PyInt.digit_val c <= 9)%Z.
Proof.
  destruct c as [[] [] [] [] [] [] [] []]; vm_compute; intros H;
    try discriminate H; repeat split; discriminate.
Qed.

(** [int] of a non-empty run of digits is the value of the digits. *)
Lemma of_str_digits (ds : string) :
  ds <> "" -> Str.all Chr.is_digit ds = true ->
  PyInt.of_str ds = PyInt.digits_go ds 0 false.
Proof.
  intros Hne Hall.
  assert (Hsp : Str.all (fun c => negb (Chr.is_int_space c)) ds = true).
  { revert Hall. apply all_weaken. intros c Hc.
    destruct (digit_chars c Hc) as [-> _]. reflexivity. }
  unfold PyInt.of_str.
  destruct ds as [|c ds]; [congruence|].
  simpl in Hall. apply andb_prop in Hall as [Hc _].
  destruct (digit_chars c Hc) as [Hb [_ [Hm [Hp _]]]].
  cbn [Str.lstrip_by]. rewrite Hb, (rstrip_keeps _ _ Hsp).
  destruct c as [[] [] [] [] [] [] [] []]; try reflexivity; congruence.
Qed.

(** [int(str(n)) = n] *)
Lemma of_str_to_str (n : Z) : PyInt.of_str (PyInt.to_str n) = Some n.
Proof.
  destruct n as [|p|p]; [reflexivity | |].
  - destruct (@to_str_digits (Z.pos p)) as [Hne Hd]; [lia|].
    rewrite of_str_digits by assumption.
    rewrite pos_to_str. apply pos_digits_value.
  - unfold PyInt.to_str. cbn [Z.to_int NilZero.string_of_int].
    pose proof (DecimalPos.Unsigned.to_uint_nonnil p) as Hn.
    assert (E : NilZero.string_of_uint (Pos.to_uint p)
                = NilEmpty.string_of_uint (Pos.to_uint p)).
    { unfold NilZero.string_of_uint. destruct (Pos.to_uint p); congruence. }
    rewrite E. unfold PyInt.of_str.
    change (Ascii.Ascii true false true true false true false false)
      with "-"%char.
    cbn [Str.lstrip_by].
    replace (Chr.is_int_space "-") with false by reflexivity.
    assert (Hsp : Str.all (fun c => negb (Chr.is_int_space c))
                    (String "-" (NilEmpty.string_of_uint (Pos.to_uint p)))
                  = true).
    { simpl. apply (all_weaken Chr.is_digit); [|apply uint_digits].
      intros c Hc. destruct (digit_chars c Hc) as [-> _]. reflexivity. }
    rewrite (rstrip_keeps _ _ Hsp), pos_digits_value. reflexivity.
Qed.


End IntFacts.

(* ------------------------------------------------------------------ *)
(** ** utils.py: [parse_int_safe] *)

Module ParseFacts.

Lemma isdigit_chars (c : ascii) :
  Chr.isdigit c = true ->
  Chr.is_int_space c = false /\ Chr.is_space c = false
  /\ c <> "-"%char /\ c <> "+"%char
  /\ (Chr.is_digit c = false -> (Chr.code c =? 95)%N = false).
Proof.
  destruct c as [[] [] [] [] [] [] [] []]; vm_compute; intros H;
    try discriminate H; repeat split; try discriminate; reflexivity.
Qed.


Lemma lstrip_keeps (p : ascii -> bool) (s : string) :
  Str.all (fun c => negb (p c)) s = true -> Str.lstrip_by p s = s.
Proof.
  destruct s as [|c s]; [reflexivity|]. simpl. intros H.
  apply andb_prop in H as [Hc _]. apply negb_true_iff in Hc. now rewrite Hc.
Qed.


(** On a text of [isdigit] characters [int] reads the characters one by
    one. *)
Lemma of_str_isdigit (s : string) :
  Str.isdigit s = true -> PyInt.of_str s = PyInt.digits_go s 0 false.
Proof.
  unfold Str.isdigit. intros H. apply andb_prop in H as [Hne Hall].
  assert (Hsp : Str.all (fun c => negb (Chr.is_int_space c)) s = true).
  { revert Hall. apply IntFacts.all_weaken. intros c Hc.
    destruct (isdigit_chars c Hc) as [-> _]. reflexivity. }
  unfold PyInt.of_str.
  rewrite (lstrip_keeps _ _ Hsp), (IntFacts.rstrip_keeps _ _ Hsp).
  destruct s as [|c s]; [discriminate|].
  simpl in Hall. apply andb_prop in Hall as [Hc _].
  destruct (isdigit_chars c Hc) as [_ [_ [Hm [Hp _]]]].
  destruct c as [[] [] [] [] [] [] [] []]; try reflexivity; congruence.
Qed.

(** A superscript digit stops [int]. *)
Lemma digits_go_superscript (s : string) :
  forall acc b,
    Str.all Chr.isdigit s = true -> Str.all Chr.is_digit s = false ->
    PyInt.digits_go s acc b = None.
Proof.
  induction s as [|c s IH]; intros acc b Hall Hd; [discriminate|].
  cbn [Str.all] in Hall, Hd. apply andb_prop in Hall as [Hc Hall].
  cbn [PyInt.digits_go]. destruct (Chr.is_digit c) eqn:Ec.
  - apply IH; [exact Hall | exact Hd].
  - destruct (isdigit_chars c Hc) as [_ [_ [_ [_ Hu]]]].
    now rewrite (Hu Ec).
Qed.

End ParseFacts.



(** X6. [parse_int_safe] is not safe on superscript digits: a text whose
    characters all pass [str.isdigit] but are not all decimal digits makes
    [int] raise [ValueError], which the function does not catch. *)
Theorem X6_parse_int_safe_raises (t : string) :
  Str.isdigit (Str.strip t) = true ->
  Str.all Chr.is_digit (Str.strip t) = false ->
  parse_int_safe t = None.
Proof.
  intros Hi Hd. unfold parse_int_safe. rewrite Hi.
  rewrite (ParseFacts.of_str_isdigit _ Hi).
  apply ParseFacts.digits_go_superscript; [|exact Hd].
  unfold Str.isdigit in Hi. now apply andb_prop in Hi as [_ Hi].
Qed.

(** X6 on a text that ends in the superscript two (code 178). *)
Lemma X6_parse_int_safe_raises_witness :
  parse_int_safe (String "1" (String "178" "")) = None.
Proof.
  apply X6_parse_int_safe_raises; reflexivity.
Defined.

(* ------------------------------------------------------------------ *)
(** ** cli.py: [_parse_language_choice] *)

(** X7. [_parse_language_choice] always answers with one of the options or
    with "any"; the number shown in front of an option selects that option;
    a negative number selects "any" and never counts from the end of the
    list. *)
Theorem X7_language_choice_in_options :
  (forall choice options,
     In (_parse_language_choice choice options) options
     \/ _parse_language_choice choice options = "any")
  /\ (forall options i,
        i < List.length options ->
        _parse_language_choice (PyInt.to_str (Z.of_nat i)) options
        = nth i options "any")
  /\ (forall options n,
        (n < 0)%Z -> _parse_language_choice (PyInt.to_str n) options = "any").
Proof.
  split.
  { intros choice options. unfold _parse_language_choice.
    destruct (PyInt.of_str choice) as [idx|].
    - destruct ((0 <=? idx)%Z && (idx <? Z.of_nat (List.length options))%Z)
        eqn:E; [|now right].
      apply andb_prop in E as [E1 E2].
      apply Z.leb_le in E1. apply Z.ltb_lt in E2.
      left. apply nth_In. lia.
    - destruct (existsb (String.eqb (Str.lower choice)) options) eqn:E;
        [|now right].
      left. apply existsb_exists in E as [x [Hx E]].
      apply String.eqb_eq in E. now subst. }
  split.
  { intros options i Hi. unfold _parse_language_choice.
    rewrite IntFacts.of_str_to_str.
    replace ((0 <=? Z.of_nat i)%Z) with true by (symmetry; apply Z.leb_le; lia).
    replace ((Z.of_nat i <? Z.of_nat (List.length options))%Z) with true
      by (symmetry; apply Z.ltb_lt; lia).
    cbn [andb]. now rewrite Nat2Z.id. }
  intros options n Hn. unfold _parse_language_choice.
  rewrite IntFacts.of_str_to_str.
  replace ((0 <=? n)%Z) with false by (symmetry; apply Z.leb_gt; lia).
  reflexivity.
Qed.

(** X7 on the audio languages: "2" selects the third key, "-1" none. *)
Lemma X7_language_choice_in_options_witness :
  _parse_language_choice (PyInt.to_str (Z.of_nat 2)) (map fst AUDIO_LANGUAGES)
  = nth 2 (map fst AUDIO_LANGUAGES) "any"
  /\ _parse_language_choice (PyInt.to_str (-1)) (map fst AUDIO_LANGUAGES)
     = "any".
Proof.
  destruct X7_language_choice_in_options as [_ [H2 H3]]. split.
  - apply H2. simpl. lia.
  - apply H3. lia.
Defined.

(* ------------------------------------------------------------------ *)
(** ** utils.py: [sanitize_filename] *)

Module SanitizeFacts.

Definition is_invalid (c : ascii) : bool := existsb (Ascii.eqb c) invalid_chars.

(** What becomes of one character. *)
Definition clean (c : ascii) : ascii := if is_invalid c then "_"%char else c.

Lemma replace_char (c : ascii) (s : string) :
  Str.replace (String c EmptyString) "_" s
  = Str.map (fun x => if Ascii.eqb c x then "_"%char else x) s.
Proof.
  unfold Str.replace. induction s as [|x s IH]; [reflexivity|].
  cbn [Str.replace_go Str.drop_prefix Str.map String.length Nat.sub].
  destruct (Ascii.eqb c x).
  - cbn [append]. now rewrite IH.
  - now rewrite IH.
Qed.

Lemma map_map (f g : ascii -> ascii) (s : string) :
  Str.map f (Str.map g s) = Str.map (fun x => f (g x)) s.
Proof. induction s as [|x s IH]; simpl; [reflexivity | now rewrite IH]. Qed.

Lemma map_ext (f g : ascii -> ascii) (s : string) :
  (forall x, f x = g x) -> Str.map f s = Str.map g s.
Proof.
  intros H. induction s as [|x s IH]; simpl; [reflexivity|].
  now rewrite H, IH.
Qed.

(** Replacing the characters of a list one after the other acts on each
    character of the name by itself. *)
Lemma replacements_of (l : list ascii) (nm : string) :
  fold_left (fun acc char => Str.replace (String char EmptyString) "_" acc)
            l nm
  = Str.map (fun x => if existsb (Ascii.eqb x) l then "_"%char else x) nm.
Proof.
  revert nm. induction l as [|c l IH]; intros nm; cbn [fold_left].
  - cbn [existsb]. induction nm as [|x nm IHn]; simpl;
      [reflexivity | now rewrite <- IHn].
  - rewrite IH, replace_char, map_map. apply map_ext. intros x.
    cbn [existsb]. rewrite (Ascii.eqb_sym x c).
    destruct (Ascii.eqb c x); [|reflexivity].
    cbn [orb]. now destruct (existsb (Ascii.eqb "_"%char) l).
Qed.

Lemma replacements (nm : string) :
  fold_left (fun acc char => Str.replace (String char EmptyString) "_" acc)
            invalid_chars nm
  = Str.map clean nm.
Proof. apply replacements_of. Qed.

Lemma take_map (f : ascii -> ascii) (k : nat) (s : string) :
  Str.take k (Str.map f s) = Str.map f (Str.take k s).
Proof.
  revert s. induction k as [|k IH]; intros [|x s]; simpl; try reflexivity.
  now rewrite IH.
Qed.

Lemma length_map (f : ascii -> ascii) (s : string) :
  String.length (Str.map f s) = String.length s.
Proof. induction s as [|x s IH]; simpl; [reflexivity | now rewrite IH]. Qed.

Lemma length_take (k : nat) (s : string) :
  String.length (Str.take k s) = Nat.min k (String.length s).
Proof.
  revert s. induction k as [|k IH]; intros [|x s]; simpl; try reflexivity.
  now rewrite IH.
Qed.

Lemma take_all (k : nat) (s : string) :
  String.length s <= k -> Str.take k s = s.
Proof.
  revert s. induction k as [|k IH]; intros [|x s]; simpl; intros H;
    try reflexivity; [lia|]. rewrite IH; [reflexivity | lia].
Qed.

Lemma clean_valid (c : ascii) : is_invalid (clean c) = false.
Proof.
  unfold clean. destruct (is_invalid c) eqn:E; [reflexivity | exact E].
Qed.

Lemma map_clean_valid (s : string) :
  Str.all (fun c => negb (is_invalid c)) (Str.map clean s) = true.
Proof.
  induction s as [|x s IH]; simpl; [reflexivity|].
  now rewrite clean_valid, IH.
Qed.

Lemma map_clean_fixed (s : string) :
  Str.all (fun c => negb (is_invalid c)) s = true -> Str.map clean s = s.
Proof.
  induction s as [|x s IH]; simpl; [reflexivity|]. intros H.
  apply andb_prop in H as [Hx Hs]. rewrite (IH Hs). unfold clean.
  apply negb_true_iff in Hx. now rewrite Hx.
Qed.

Lemma sanitize_shape (nm : string) (n : Z) :
  (0 <= n)%Z ->
  sanitize_filename nm n = Str.map clean (Str.take (Z.to_nat n) nm).
Proof.
  intros Hn. unfold sanitize_filename, Str.slice_to.
  replace (n <? 0)%Z with false by (symmetry; apply Z.ltb_ge; lia).
  now rewrite replacements, take_map.
Qed.

End SanitizeFacts.

(** X8. For a limit that is not negative, [sanitize_filename] keeps the
    first [max_length] characters of the name, each of the nine characters
    < > : double quote / \ | ? * replaced by an underscore and every other
    character as it is: the result holds none of the nine, and its length
    is the smaller of the limit and the length of the name.  A negative
    limit cuts that many characters off the end instead. *)
Theorem X8_sanitize_filename_result :
  (forall nm n,
     (0 <= n)%Z ->
     sanitize_filename nm n
     = Str.map SanitizeFacts.clean (Str.take (Z.to_nat n) nm)
     /\ Str.all (fun c => negb (SanitizeFacts.is_invalid c))
                (sanitize_filename nm n) = true
     /\ String.length (sanitize_filename nm n)
        = Nat.min (Z.to_nat n) (String.length nm))
  /\ (forall nm n,
        (n < 0)%Z ->
        String.length (sanitize_filename nm n)
        = String.length nm - Z.to_nat (- n)).
Proof.
  split.
  - intros nm n Hn. rewrite (SanitizeFacts.sanitize_shape nm Hn).
    split; [reflexivity|]. split; [apply SanitizeFacts.map_clean_valid|].
    now rewrite SanitizeFacts.length_map, SanitizeFacts.length_take.
  - intros nm n Hn. unfold sanitize_filename, Str.slice_to.
    replace (n <? 0)%Z with true by (symmetry; apply Z.ltb_lt; lia).
    rewrite SanitizeFacts.replacements, SanitizeFacts.length_take,
      SanitizeFacts.length_map. lia.
Qed.

(** X8 on a name with a colon and a question mark, cut to eight
    characters. *)
Lemma X8_sanitize_filename_result_witness :
  sanitize_filename "Re:Zero? - 01" 8
  = Str.map SanitizeFacts.clean (Str.take (Z.to_nat 8) "Re:Zero? - 01")
  /\ Str.all (fun c => negb (SanitizeFacts.is_invalid c))
             (sanitize_filename "Re:Zero? - 01" 8) = true
  /\ String.length (sanitize_filename "Re:Zero? - 01" 8)
     = Nat.min (Z.to_nat 8) (String.length "Re:Zero? - 01").
Proof.
  apply (proj1 X8_sanitize_filename_result). lia.
Defined.

(** X9. [sanitize_filename] is idempotent for a limit that is not negative,
    and it returns a name unchanged when the name holds none of the nine
    characters and is no longer than the limit. *)
Theorem X9_sanitize_filename_idempotent (nm : string) (n : Z) :
  (0 <= n)%Z ->
  sanitize_filename (sanitize_filename nm n) n = sanitize_filename nm n
  /\ (Str.all (fun c => negb (SanitizeFacts.is_invalid c)) nm = true ->
      (Z.of_nat (String.length nm) <= n)%Z ->
      sanitize_filename nm n = nm).
Proof.
  intros Hn.
  assert (Hfix : forall s,
            Str.all (fun c => negb (SanitizeFacts.is_invalid c)) s = true ->
            (Z.of_nat (String.length s) <= n)%Z ->
            sanitize_filename s n = s).
  { intros s Hs Hl. rewrite (SanitizeFacts.sanitize_shape s Hn).
    rewrite SanitizeFacts.take_all by lia.
    now apply SanitizeFacts.map_clean_fixed. }
  split; [|apply Hfix].
  apply Hfix.
  - rewrite (SanitizeFacts.sanitize_shape nm Hn).
    apply SanitizeFacts.map_clean_valid.
  - rewrite (SanitizeFacts.sanitize_shape nm Hn).
    rewrite SanitizeFacts.length_map, SanitizeFacts.length_take. lia.
Qed.

(** X9 on the same name. *)
Lemma X9_sanitize_filename_idempotent_witness :
  sanitize_filename (sanitize_filename "Re:Zero? - 01" 100) 100
  = sanitize_filename "Re:Zero? - 01" 100
  /\ (Str.all (fun c => negb (SanitizeFacts.is_invalid c)) "Re:Zero? - 01"
      = true ->
      (Z.of_nat (String.length "Re:Zero? - 01") <= 100)%Z ->
      sanitize_filename "Re:Zero? - 01" 100 = "Re:Zero? - 01").
Proof.
  apply X9_sanitize_filename_idempotent. lia.
Defined.

(* ------------------------------------------------------------------ *)
(** ** utils.py: the language filters *)

Module LangFacts.

Lemma drop_prefix_app (p s r : string) :
  Str.drop_prefix p s = Some r <-> s = p ++ r.
Proof.
  revert s. induction p as [|a p IH]; intros s; simpl.
  - split; [now intros [= ->] | now intros ->].
  - destruct s as [|b s].
    + split; discriminate.
    + destruct (Ascii.eqb_spec a b) as [->|Hab].
      * rewrite IH. split; [now intros -> | now intros [= ->]].
      * split; [discriminate | intros [= E _]; now elim Hab].
Qed.

(** [needle in s] holds exactly when [s] has [needle] as a substring. *)
Lemma contains_spec (needle s : string) :
  Str.contains needle s = true <-> exists p q, s = p ++ needle ++ q.
Proof.
  induction s as [|c s IH].
  - simpl. destruct (Str.drop_prefix needle "") as [r|] eqn:E.
    + apply drop_prefix_app in E. split; [|reflexivity].
      intros _. now exists "", r.
    + split; [discriminate|]. intros (p & q & H).
      destruct p; [|discriminate]. simpl in H.
      assert (Str.drop_prefix needle "" = Some q)
        by now apply drop_prefix_app.
      congruence.
  - cbn [Str.contains].
    destruct (Str.drop_prefix needle (String c s)) as [r|] eqn:E.
    + apply drop_prefix_app in E. split; [|reflexivity].
      intros _. now exists "", r.
    + rewrite IH. split.
      * intros (p & q & ->). now exists (String c p), q.
      * intros (p & q & H). destruct p as [|a p].
        -- simpl in H.
           assert (Str.drop_prefix needle (String c s) = Some q)
             by now apply drop_prefix_app.
           congruence.
        -- injection H as _ ->. now exists p, q.
Qed.

Lemma app_assoc (a b c : string) : (a ++ b) ++ c = a ++ b ++ c.
Proof. induction a as [|x a IH]; simpl; [reflexivity | now rewrite IH]. Qed.

(** A name that holds a keyword holds every part of the keyword. *)
Lemma contains_part (pre k post s : string) :
  Str.contains (pre ++ k ++ post) s = true -> Str.contains k s = true.
Proof.
  rewrite !contains_spec. intros (p & q & ->).
  exists (p ++ pre), (post ++ q). now rewrite !app_assoc.
Qed.

Lemma filter_filter {A : Type} (f g : A -> bool) (l : list A) :
  filter g (filter f l) = filter (fun x => f x && g x) l.
Proof.
  induction l as [|x l IH]; simpl; [reflexivity|].
  destruct (f x); simpl; [destruct (g x)|]; now rewrite IH.
Qed.

Lemma filter_all {A : Type} (f : A -> bool) (l : list A) :
  (forall x, In x l -> f x = true) -> filter f l = l.
Proof.
  induction l as [|x l IH]; simpl; intros H; [reflexivity|].
  rewrite (H x) by now left. f_equal. apply IH. intros y Hy. apply H.
  now right.
Qed.

Lemma any_matches (nm : string) (d : list (string * list string)) :
  matches_language nm "any" d = true.
Proof. reflexivity. Qed.

(** What [filter_by_language] keeps, whatever the two languages are. *)
Lemma filter_by_language_filter (ts : list Torrent) (a s : string) :
  filter_by_language ts a s
  = filter (fun t => matches_language (name t) a AUDIO_LANGUAGES
                     && matches_language (name t) s SUBTITLE_LANGUAGES) ts.
Proof.
  unfold filter_by_language.
  destruct (String.eqb_spec a "any") as [->|]; [|reflexivity].
  destruct (String.eqb_spec s "any") as [->|]; [|reflexivity].
  simpl. symmetry. now apply filter_all.
Qed.

Lemma dub_or_dual (l : string) :
  existsb (fun kw => Str.contains kw l) DUB_KEYWORDS
  = Str.contains "dub" l || Str.contains "dual" l.
Proof.
  unfold DUB_KEYWORDS. cbn [existsb].
  destruct (Str.contains "dub" l) eqn:Edub; [reflexivity|].
  destruct (Str.contains "dual" l) eqn:Edual.
  - cbn [orb]. now rewrite !orb_true_r.
  - destruct (Str.contains "dubbed" l) eqn:E1.
    { apply (@contains_part "" "dub" "bed") in E1. congruence. }
    destruct (Str.contains "dual audio" l) eqn:E2.
    { apply (@contains_part "" "dual" " audio") in E2. congruence. }
    destruct (Str.contains "english dub" l) eqn:E3.
    { apply (@contains_part "english " "dub" "") in E3. congruence. }
    reflexivity.
Qed.

Lemma english_audio (l : string) :
  existsb (fun kw => Str.contains kw l)
          ["english dub"; "eng dub"; "dubbed"; "dual audio"; "dual"; "dub"]
  = Str.contains "dub" l || Str.contains "dual" l.
Proof.
  cbn [existsb].
  destruct (Str.contains "dub" l) eqn:Edub; [now rewrite !orb_true_r|].
  destruct (Str.contains "dual" l) eqn:Edual; [now rewrite !orb_true_r|].
  destruct (Str.contains "dubbed" l) eqn:E1.
  { apply (@contains_part "" "dub" "bed") in E1. congruence. }
  destruct (Str.contains "dual audio" l) eqn:E2.
  { apply (@contains_part "" "dual" " audio") in E2. congruence. }
  destruct (Str.contains "english dub" l) eqn:E3.
  { apply (@contains_part "english " "dub" "") in E3. congruence. }
  destruct (Str.contains "eng dub" l) eqn:E4.
  { apply (@contains_part "eng " "dub" "") in E4. congruence. }
  reflexivity.
Qed.

End LangFacts.

(** X10. [contains_dub_keywords] holds exactly for the names whose lower
    case has [dub] or [dual] in it: the keywords [dubbed], [dual audio] and
    [english dub] add nothing.  Filtering for the audio language [english]
    is the same test. *)
Theorem X10_dub_keywords_are_dub_or_dual (nm : string) :
  contains_dub_keywords nm
  = Str.contains "dub" (Str.lower nm) || Str.contains "dual" (Str.lower nm)
  /\ matches_language nm "english" AUDIO_LANGUAGES = contains_dub_keywords nm.
Proof.
  unfold contains_dub_keywords. rewrite LangFacts.dub_or_dual.
  split; [reflexivity|].
  unfold matches_language, AUDIO_LANGUAGES.
  cbn [String.eqb Ascii.eqb Bool.eqb dict_get].
  apply LangFacts.english_audio.
Qed.

(** X11. [filter_by_language] keeps, in their order, the torrents whose
    name matches both languages; filtering for both languages at once is
    filtering for the one and then for the other, in either order, and
    filtering twice changes nothing. *)
Theorem X11_filter_by_language_composes (ts : list Torrent) (a s : string) :
  (forall t, In t (filter_by_language ts a s)
             <-> In t ts
                 /\ matches_language (name t) a AUDIO_LANGUAGES = true
                 /\ matches_language (name t) s SUBTITLE_LANGUAGES = true)
  /\ filter_by_language (filter_by_language ts a "any") "any" s
     = filter_by_language ts a s
  /\ filter_by_language (filter_by_language ts "any" s) a "any"
     = filter_by_language ts a s
  /\ filter_by_language (filter_by_language ts a s) a s
     = filter_by_language ts a s.
Proof.
  rewrite !LangFacts.filter_by_language_filter.
  rewrite !LangFacts.filter_filter.
  split; [|split; [|split]].
  - intros t. rewrite filter_In, andb_true_iff. tauto.
  - apply filter_ext. intros t.
    rewrite !LangFacts.any_matches. now rewrite andb_true_r.
  - apply filter_ext. intros t.
    rewrite !LangFacts.any_matches. rewrite andb_true_r. simpl.
    apply andb_comm.
  - apply filter_ext. intros t.
    now destruct (matches_language (name t) a AUDIO_LANGUAGES),
                 (matches_language (name t) s SUBTITLE_LANGUAGES).
Qed.

(** X12. A language the table has no keywords for filters nothing: with
    an audio language that is no key of [AUDIO_LANGUAGES] and a subtitle
    language that is no key of [SUBTITLE_LANGUAGES], [filter_by_language]
    returns every torrent. *)
Theorem X12_unlisted_language_keeps_all (ts : list Torrent) (a s : string) :
  dict_get AUDIO_LANGUAGES a [] = [] ->
  dict_get SUBTITLE_LANGUAGES s [] = [] ->
  filter_by_language ts a s = ts.
Proof.
  intros Ha Hs. rewrite LangFacts.filter_by_language_filter.
  apply LangFacts.filter_all. intros t _.
  unfold matches_language. rewrite Ha, Hs.
  now destruct (String.eqb a "any"), (String.eqb s "any").
Qed.

(** X12 with [arabic] as the audio language, which only the subtitle table
    lists, and [japanese] as the subtitle language, which only the audio
    table lists. *)
Lemma X12_unlisted_language_keeps_all_witness :
  filter_by_language [sample_torrent "1" 50 None] "arabic" "japanese"
  = [sample_torrent "1" 50 None].
Proof.
  apply X12_unlisted_language_keeps_all; reflexivity.
Defined.

(* ------------------------------------------------------------------ *)
(** ** The extracted episode and season, read back *)

Module RoundTripFacts.





End RoundTripFacts.


Module SeasonFacts.






(** A greedy unbounded repetition takes a whole text of the class. *)
Lemma rep_match_whole (A : Type) (ic : bool) (c : Re.cclass) (g : string)
    (k : option ascii -> string -> option A) (a : A)
    (lo : nat) (prev : option ascii) :
  ReFacts.all_in ic c g = true -> lo <= String.length g ->
  k (ReFacts.last_of prev g) "" = Some a ->
  Re.rep_match ic c lo None prev g k = Some a.
Proof.
  intros Hall Hlo Hk. rewrite <- (StrFacts.append_empty_r g).
  now apply ReFacts.rep_match_run.
Qed.


End SeasonFacts.


(* ------------------------------------------------------------------ *)
(** ** metadata.py: the values of the extracted fields *)

(** X15. [extract_audio_language] returns [English] or [Japanese] and does
    not depend on the category: the branch that reads the category returns
    what the default returns.  [extract_subtitle_language] returns one of
    [Multi], [English], [None], [Unknown], and reads the category only when
    neither pattern matches. *)
Theorem X15_language_values (title descr categ : string) :
  (extract_audio_language title descr categ = "English"
   \/ extract_audio_language title descr categ = "Japanese")
  /\ (forall categ',
        extract_audio_language title descr categ'
        = extract_audio_language title descr categ)
  /\ (extract_subtitle_language title descr categ = "Multi"
      \/ extract_subtitle_language title descr categ = "English"
      \/ extract_subtitle_language title descr categ = "None"
      \/ extract_subtitle_language title descr categ = "Unknown")
  /\ (forall categ',
        extract_subtitle_language title descr categ' = "Multi"
        <-> extract_subtitle_language title descr categ = "Multi")
  /\ (forall m,
        audio_language m = extract_audio_language title descr categ ->
        known (audio_language m) = true).
Proof.
  unfold extract_audio_language, extract_subtitle_language.
  destruct (found (Re.search PATTERNS.audio_english (title ++ " " ++ descr)));
    destruct (found (Re.search PATTERNS.audio_japanese (title ++ " " ++ descr)));
    destruct (found (Re.search PATTERNS.sub_multi (title ++ " " ++ descr)));
    destruct (found (Re.search PATTERNS.sub_english (title ++ " " ++ descr)));
    destruct (Str.contains "Raw" categ);
    destruct (Str.contains "English-translated" categ).
  all: split; [auto|].
  all: split;
    [intros categ'; try reflexivity;
     destruct (Str.contains "Raw" categ'); reflexivity|].
  all: split; [auto|]; split; [|intros m ->; reflexivity].
  all: intros categ'; destruct (Str.contains "Raw" categ');
    destruct (Str.contains "English-translated" categ').
  all: split; intros H; first [reflexivity | discriminate H].
Qed.

(** X16. The name [extract_anime_name] returns is never empty and has no
    blank at either end: stripping it again changes nothing. *)
Theorem X16_anime_name_stripped (title : string) :
  Str.truthy (extract_anime_name title) = true
  /\ Str.strip (extract_anime_name title) = extract_anime_name title.
Proof.
  unfold extract_anime_name.
  match goal with |- context [Str.or_else (Str.strip ?x) _] =>
    generalize x end.
  intros s. unfold Str.or_else.
  destruct (Str.strip s) eqn:E; cbn [Str.truthy].
  - split; reflexivity.
  - split; [reflexivity|]. rewrite <- E. apply StrFacts.strip_idem.
Qed.

(* ------------------------------------------------------------------ *)
(** ** metadata.py and grouper.py: fetching, then grouping *)

Section FetchFacts.

Variable World : Type.
Variable fetch_detail_page : World -> string -> option detail_dict * World.






End FetchFacts.



(* ------------------------------------------------------------------ *)
(** ** grouper.py: the dubbed flag and the episode range of a group *)

Module FlagFacts.

(** The test the flag makes on the names of the members. *)
Definition dub_in_name (t : Torrent) : bool :=
  Str.contains "dub" (Str.lower (name t))
  || Str.contains "dual" (Str.lower (name t)).

Lemma existsb_same {A : Type} (f g : A -> bool) (l : list A) :
  (forall x, f x = g x) -> existsb f l = existsb g l.
Proof.
  intros H. induction l as [|x l IH]; simpl; [reflexivity|].
  now rewrite H, IH.
Qed.

Lemma build_group_flag (l : list Torrent) (g : TorrentGroup) :
  build_group l = Some g ->
  exists t0 m0,
    hd_error l = Some t0 /\ metadata t0 = Some m0
    /\ is_dubbed g
       = String.eqb (Str.lower (audio_language m0)) "english"
         || existsb dub_in_name l.
Proof.
  unfold build_group. destruct l as [|t0 l]; [discriminate|].
  destruct (metadata t0) as [m0|] eqn:E; [|discriminate].
  intros H. injection H as <-. exists t0, m0.
  split; [reflexivity|]. split; [exact E|]. cbn [is_dubbed]. f_equal.
  change (existsb (fun t => contains_dub_keywords (name t)) (t0 :: l)
          = existsb dub_in_name (t0 :: l)).
  apply existsb_same. intros t. unfold contains_dub_keywords, dub_in_name.
  apply LangFacts.dub_or_dual.
Qed.

End FlagFacts.

(** X19. Every returned group is flagged as dubbed exactly when the audio
    language of its first member is [english] in any case, or the lower
    case of some member's name has [dub] or [dual] in it; its episode range
    is the label of the episode numbers of its own members. *)
Theorem X19_dubbed_flag (ts : list Torrent) (n : string) :
  exists ts' gs,
    group_torrents_deterministic ts n = Some (ts', gs)
    /\ forall g, In g gs ->
         exists t0 m0,
           hd_error (torrents g) = Some t0 /\ metadata t0 = Some m0
           /\ is_dubbed g
              = String.eqb (Str.lower (audio_language m0)) "english"
                || existsb FlagFacts.dub_in_name (torrents g)
           /\ episode_range g
              = episode_label (collect_episodes (torrents g)).
Proof.
  destruct ts as [|t0 ts].
  { exists [], []. split; [reflexivity|]. intros g []. }
  destruct (@grouped (t0 :: ts) n) as [gs0 [Hd Hg]]; [discriminate|].
  eexists _, _. split; [exact Hg|]. intros g Hin.
  apply (Permutation_in _ (sort_desc_perm total_seeders gs0)) in Hin.
  pose proof (discovered_built Hd) as Hb. rewrite Forall_forall in Hb.
  specialize (Hb g Hin).
  destruct (FlagFacts.build_group_flag _ Hb) as (t1 & m1 & Hh & Hm & Hf).
  exists t1, m1. repeat split; try assumption.
  now apply build_group_label.
Qed.

(* ------------------------------------------------------------------ *)
(** ** metadata.py: Roman numerals *)

Module RomanFacts.

(** The value of one character of a numeral. *)
Definition roman_value (c : ascii) : Z :=
  dict_get roman_values (String c EmptyString) 0%Z.

(** No value is followed by a greater one. *)
Fixpoint non_increasing (vs : list Z) : bool :=
  match vs with
  | [] => true
  | v :: r =>
      match r with
      | [] => true
      | v' :: _ => (v' <=? v)%Z
      end && non_increasing r
  end.

Lemma roman_value_range (c : ascii) : (0 <= roman_value c <= 10)%Z.
Proof.
  unfold roman_value, roman_values. cbn [dict_get].
  repeat match goal with
         | |- context [if String.eqb ?a ?b then _ else _] =>
             destruct (String.eqb a b); [lia|]
         end.
  lia.
Qed.

(** The loop of [_parse_roman_numeral], written from the left. *)
Definition roman_loop (l : list ascii) : Z * Z :=
  fold_right (fun c st => roman_step st c) (0, 0)%Z l.

Lemma roman_loop_rev (l : list ascii) :
  fold_left roman_step (List.rev l) (0, 0)%Z = roman_loop l.
Proof.
  unfold roman_loop. rewrite <- fold_left_rev_right.
  now rewrite rev_involutive.
Qed.

Lemma roman_loop_prev (l : list ascii) :
  snd (roman_loop l)
  = match l with [] => 0%Z | c :: _ => roman_value c end.
Proof.
  destruct l as [|c l]; [reflexivity|]. unfold roman_loop.
  cbn [fold_right]. destruct (fold_right _ _ l) as [r p].
  unfold roman_step. fold (roman_value c).
  now destruct (roman_value c <? p)%Z.
Qed.

Lemma roman_loop_bounds (l : list ascii) :
  (- 10 * Z.of_nat (List.length l) <= fst (roman_loop l)
   <= 10 * Z.of_nat (List.length l))%Z.
Proof.
  induction l as [|c l IH]; [simpl; lia|].
  unfold roman_loop in *. cbn [fold_right List.length]. destruct (fold_right _ _ l) as [r p].
  unfold roman_step. fold (roman_value c).
  pose proof (roman_value_range c).
  cbn [fst] in IH. destruct (roman_value c <? p)%Z; cbn [fst]; lia.
Qed.

Lemma roman_loop_additive (l : list ascii) :
  non_increasing (map roman_value l) = true ->
  fst (roman_loop l) = zsum (map roman_value l).
Proof.
  induction l as [|c l IH]; [reflexivity|].
  cbn [map non_increasing]. intros H. apply andb_prop in H as [Hc Hl].
  specialize (IH Hl). pose proof (roman_loop_prev l) as Hp.
  unfold roman_loop in *. cbn [fold_right]. destruct (fold_right _ _ l) as [r p].
  unfold roman_step. fold (roman_value c).
  cbn [fst snd] in *. rewrite zsum_cons.
  assert (Hge : (p <= roman_value c)%Z).
  { subst p. destruct l as [|c' l]; cbn [map] in Hc.
    - apply roman_value_range.
    - now apply Z.leb_le. }
  destruct (Z.ltb_spec (roman_value c) p); cbn [fst]; lia.
Qed.

End RomanFacts.

(** X20. [_parse_roman_numeral] returns a number between 1 and ten times
    the length of the numeral (1 for the empty one).  For a numeral in
    which no character is followed by one of greater value it returns the
    sum of the values of its characters, where [I], [V], [X] in either case
    count 1, 5, 10 and any other character 0; a sum of 0 gives 1. *)
Theorem X20_roman_numeral_value (numeral : string) :
  (1 <= _parse_roman_numeral numeral
   <= Z.max 1 (10 * Z.of_nat (String.length numeral)))%Z
  /\ (RomanFacts.non_increasing
        (map RomanFacts.roman_value
             (list_ascii_of_string (Str.upper numeral))) = true ->
      _parse_roman_numeral numeral
      = Z.max 1 (zsum (map RomanFacts.roman_value
                           (list_ascii_of_string (Str.upper numeral))))).
Proof.
  unfold _parse_roman_numeral. rewrite RomanFacts.roman_loop_rev.
  set (l := list_ascii_of_string (Str.upper numeral)).
  assert (Hlen : List.length l = String.length numeral).
  { subst l. clear. unfold Str.upper.
    induction numeral as [|c s IH]; [reflexivity|].
    cbn [Str.map list_ascii_of_string List.length String.length].
    now rewrite IH. }
  split.
  - pose proof (RomanFacts.roman_loop_bounds l) as Hb. rewrite Hlen in Hb.
    destruct (Z.gtb_spec (fst (RomanFacts.roman_loop l)) 0); lia.
  - intros H. rewrite (RomanFacts.roman_loop_additive _ H).
    destruct (Z.gtb_spec (zsum (map RomanFacts.roman_value l)) 0); lia.
Qed.

(** X20 on [xvii], written in lower case. *)
Lemma X20_roman_numeral_value_witness :
  (1 <= _parse_roman_numeral "xvii" <= 40)%Z
  /\ _parse_roman_numeral "xvii" = 17%Z.
Proof.
  split.
  - exact (proj1 (X20_roman_numeral_value "xvii")).
  - exact (proj2 (X20_roman_numeral_value "xvii") eq_refl).
Defined.

(* ------------------------------------------------------------------ *)
(** ** metadata.py: no bracket is left in the name of a one-line title *)

Module BracketFacts.
Import Re.

(** The text holds no newline. *)
Definition one_line (s : string) : bool :=
  Str.all (fun c => negb (Ascii.eqb c "010")) s.

(** The text holds no opening bracket, square or round. *)
Definition no_opening (s : string) : bool :=
  Str.all (fun c => negb (cls_mem false STRIP.opening c)) s.

(** [re.sub] with an empty replacement only takes characters away. *)
Lemma delete_go_all (P : ascii -> bool) (p : pattern) (s : string) :
  forall prev skip,
    Str.all P s = true -> Str.all P (delete_go p prev s skip) = true.
Proof.
  induction s as [|x s IH]; intros prev skip H; [reflexivity|].
  cbn [Str.all] in H. apply andb_prop in H as [Hx Hs].
  cbn [delete_go]. destruct skip as [|n]; [|now apply IH].
  destruct (match_here p prev (String x s)) as [[rest cs]|].
  - destruct (String.length (String x s) - String.length rest);
      [cbn [Str.all]; rewrite Hx|]; now apply IH.
  - cbn [Str.all]. rewrite Hx. now apply IH.
Qed.

Lemma delete_go_skip (p : pattern) (s : string) :
  forall prev n, String.length s <= n -> delete_go p prev s n = "".
Proof.
  induction s as [|x s IH]; intros prev n H; [reflexivity|].
  destruct n as [|n]; simpl in H; [lia|]. cbn [delete_go]. apply IH. lia.
Qed.

Lemma lstrip_all (P p : ascii -> bool) (s : string) :
  Str.all P s = true -> Str.all P (Str.lstrip_by p s) = true.
Proof.
  induction s as [|c s IH]; [reflexivity|]. intros H. cbn [Str.lstrip_by].
  destruct (p c); [|exact H]. cbn [Str.all] in H.
  apply andb_prop in H as [_ Hs]. now apply IH.
Qed.

Lemma rstrip_all (P p : ascii -> bool) (s : string) :
  Str.all P s = true -> Str.all P (Str.rstrip_by p s) = true.
Proof.
  induction s as [|c s IH]; [reflexivity|]. intros H. cbn [Str.all] in H.
  apply andb_prop in H as [Hc Hs]. specialize (IH Hs).
  cbn [Str.rstrip_by]. destruct (Str.rstrip_by p s) as [|y r].
  - destruct (p c); [reflexivity|]. cbn [Str.all]. now rewrite Hc.
  - cbn [Str.all] in *. now rewrite Hc, IH.
Qed.

Lemma strip_all (P : ascii -> bool) (s : string) :
  Str.all P s = true -> Str.all P (Str.strip s) = true.
Proof. intros H. unfold Str.strip. now apply rstrip_all, lstrip_all. Qed.

Lemma all_append (P : ascii -> bool) (a b : string) :
  Str.all P (a ++ b) = true -> Str.all P b = true.
Proof.
  induction a as [|x a IH]; [trivial|]. cbn [append Str.all]. intros H.
  apply andb_prop in H as [_ H]. now apply IH.
Qed.

(** A single character is in the text exactly when some character of the
    text is that one. *)
Lemma contains_char (a : ascii) (s : string) :
  Str.contains (String a "") s = false
  <-> Str.all (fun c => negb (Ascii.eqb c a)) s = true.
Proof.
  induction s as [|x s IH]; [split; reflexivity|].
  cbn [Str.contains Str.drop_prefix Str.all]. rewrite (Ascii.eqb_sym a x).
  destruct (Ascii.eqb x a); cbn [negb andb]; [split; discriminate|].
  exact IH.
Qed.

Lemma dot_run (s : string) : ReFacts.all_in false CDot s = one_line s.
Proof.
  unfold one_line.
  induction s as [|x s IH]; [reflexivity|].
  cbn [ReFacts.all_in Str.all]. now rewrite IH.
Qed.

(** Where [\s*[\[\(].*$] matches in a one-line text, it matches up to the
    end. *)
Lemma tail_match_end (prev : option ascii) (s rest : string) (cs : caps) :
  one_line s = true ->
  match_here STRIP.bracket_tail prev s = Some (rest, cs) -> rest = "".
Proof.
  intros Hs H. unfold match_here in H.
  apply ReFacts.rx_match_span in H as (p' & s' & cs' & Hsp & E).
  injection E as -> ->.
  destruct (ReFacts.span_suffix Hsp) as [g Eg].
  rewrite Eg in Hs. apply all_append in Hs.
  unfold STRIP.bracket_tail in Hsp. cbn [rx icase] in Hsp.
  inversion Hsp as [| | |r1 r2 p0 s0 cs0 p1 s1 cs1 p2 s2 cs2 _ Hend| | | | | | | | |];
    subst.
  inversion Hend as [| | | | | | | | | | |p3 s3 cs3 Heol|]; subst.
  destruct rest as [|c [|c' r]]; [reflexivity | | discriminate Heol].
  cbn [at_eol] in Heol. unfold one_line in Hs. cbn [Str.all] in Hs.
  rewrite Heol in Hs. discriminate Hs.
Qed.

(** It matches wherever a one-line text has an opening bracket. *)
Lemma tail_match_opening (prev : option ascii) (x : ascii) (s : string) :
  cls_mem false STRIP.opening x = true -> one_line s = true ->
  match_here STRIP.bracket_tail prev (String x s) = Some ("", []).
Proof.
  intros Hx Hs.
  assert (Hsp : cls_mem false Syntax.space x = false).
  { revert Hx. unfold STRIP.opening, Syntax.one_of, cls_mem, items_mem.
    cbn [List.map existsb item_mem andb orb xorb].
    destruct (Ascii.eqb_spec x "[") as [->|_]; [reflexivity|].
    destruct (Ascii.eqb_spec x "(") as [->|_]; [reflexivity|].
    discriminate. }
  unfold match_here, STRIP.bracket_tail, STRIP.rest, Syntax.star.
  cbn [rx icase rx_match rep_match]. rewrite Hsp, Hx.
  apply SeasonFacts.rep_match_whole;
    [now rewrite dot_run | simpl; lia | reflexivity].
Qed.

(** The last substitution of [extract_anime_name] leaves no opening
    bracket in a one-line text. *)
Lemma tail_deleted (s : string) :
  forall prev,
    one_line s = true ->
    no_opening (delete_go STRIP.bracket_tail prev s 0) = true.
Proof.
  induction s as [|x s IH]; intros prev H; [reflexivity|].
  cbn [delete_go].
  destruct (match_here STRIP.bracket_tail prev (String x s))
    as [[rest cs]|] eqn:E.
  - apply (@tail_match_end prev _ _ _ H) in E. subst rest.
    cbn [String.length Nat.sub].
    now rewrite delete_go_skip.
  - unfold one_line in H. cbn [Str.all] in H.
    apply andb_prop in H as [_ Hs].
    unfold no_opening. cbn [Str.all].
    destruct (cls_mem false STRIP.opening x) eqn:Ex.
    + rewrite (@tail_match_opening prev x s Ex Hs) in E. discriminate E.
    + cbn [negb andb]. now apply IH.
Qed.

End BracketFacts.

(** X21. For a title without a newline the name [extract_anime_name]
    returns holds no opening bracket, neither square nor round: the last
    substitution cuts the name at the first one. *)
Theorem X21_anime_name_without_brackets (title : string) :
  Str.contains (String "010" "") title = false ->
  Str.contains "[" (extract_anime_name title) = false
  /\ Str.contains "(" (extract_anime_name title) = false.
Proof.
  intros H. apply BracketFacts.contains_char in H.
  fold (BracketFacts.one_line title) in H.
  assert (Hno : BracketFacts.no_opening (extract_anime_name title) = true).
  { unfold extract_anime_name, Re.delete_all.
    match goal with
    | |- context [Re.delete_go STRIP.bracket_tail None ?s 0] =>
        assert (Hs : BracketFacts.one_line s = true)
          by (unfold BracketFacts.one_line;
              repeat apply BracketFacts.delete_go_all;
              apply BracketFacts.strip_all;
              apply BracketFacts.delete_go_all; exact H);
        pose proof (@BracketFacts.tail_deleted s None Hs) as Hd;
        revert Hd; generalize (Re.delete_go STRIP.bracket_tail None s 0)
    end.
    intros s Hd. apply BracketFacts.strip_all in Hd.
    unfold Str.or_else. destruct (Str.strip s); [reflexivity | exact Hd]. }
  unfold BracketFacts.no_opening in Hno.
  split; apply BracketFacts.contains_char;
    revert Hno; apply IntFacts.all_weaken; intros c;
    unfold STRIP.opening, Re.Syntax.one_of, Re.cls_mem, Re.items_mem;
    cbn [List.map existsb Re.item_mem andb orb xorb];
    destruct (Ascii.eqb c "["), (Ascii.eqb c "("); trivial.
Qed.

(** X21 on the title of the sample torrent. *)
Lemma X21_anime_name_without_brackets_witness :
  Str.contains "["
    (extract_anime_name "[SubsPlease] Test Anime - 01 (1080p) [ABC123].mkv")
  = false
  /\ Str.contains "("
       (extract_anime_name "[SubsPlease] Test Anime - 01 (1080p) [ABC123].mkv")
     = false.
Proof.
  apply X21_anime_name_without_brackets. reflexivity.
Defined.

(* ------------------------------------------------------------------ *)
(** ** metadata.py: the quality, and the fields of a metadata record *)

Module FieldFacts.
Import Re ReFacts PatternFacts.

(** The quality markers, in lower case. *)
Definition QUALITIES : list string :=
  ["4k"; "2160p"; "1080p"; "720p"; "480p"; "360p"; "fhd"; "hd";
   "1920x1080"; "1280x720"; "sd"].

(** A match of the quality pattern is one of the markers up to case, and
    group 1 is the whole match. *)
Lemma quality_text (txt : string) (m : rmatch) :
  search PATTERNS.quality txt = Some m ->
  In (Str.lower (text (group m 1))) QUALITIES.
Proof.
  intros H. open_span H.
  unfold PATTERNS.quality in H. cbn [rx icase] in H. inv_span.
  all: match goal with
       | Hl : lit_prefix true _ _ _ = Some _ |- _ =>
           apply lit_prefix_inv in Hl as (g & -> & Hg)
       end.
  all: rewrite StrFacts.consumed_append; cbn [lookup Nat.eqb text].
  all: rewrite Hg; vm_compute; tauto.
Qed.

Lemma quality_truthy (q : string) :
  In (Str.lower q) QUALITIES -> Str.truthy q = true.
Proof.
  destruct q; [|reflexivity]. vm_compute. intros H.
  repeat (destruct H as [H|H]; [discriminate H|]). destruct H.
Qed.

Lemma quality_values (title descr : string) :
  extract_quality title descr = "Unknown"
  \/ In (Str.lower (extract_quality title descr)) QUALITIES.
Proof.
  unfold extract_quality.
  destruct (search PATTERNS.quality title) as [m|] eqn:E1.
  - right. now apply quality_text in E1.
  - destruct (search PATTERNS.quality descr) as [m|] eqn:E2.
    + right. now apply quality_text in E2.
    + now left.
Qed.

Lemma quality_filled (title descr : string) :
  Str.truthy (extract_quality title descr) = true.
Proof.
  destruct (quality_values title descr) as [-> | H]; [reflexivity|].
  now apply quality_truthy.
Qed.

Lemma release_group_filled (title : string) :
  Str.truthy (extract_release_group title) = true.
Proof.
  unfold extract_release_group.
  destruct (search PATTERNS.release_group_start title) as [m|] eqn:E1.
  - apply release_group_start_group in E1 as (g & -> & Hg).
    destruct g; [congruence | reflexivity].
  - destruct (search PATTERNS.release_group_end title) as [m|] eqn:E2;
      [|reflexivity].
    apply release_group_end_group in E2 as (g & -> & Hg).
    destruct g; [congruence | reflexivity].
Qed.

Lemma season_filled (title descr : string) :
  Str.truthy (extract_season title descr) = true.
Proof.
  unfold extract_season.
  destruct (_extract_season_number title);
    [reflexivity | destruct (_extract_season_number descr); reflexivity].
Qed.

Lemma anime_name_filled (title : string) :
  Str.truthy (extract_anime_name title) = true.
Proof.
  unfold extract_anime_name.
  match goal with |- context [Str.or_else ?x _] => generalize x end.
  intros s. unfold Str.or_else. now destruct s.
Qed.

Lemma audio_filled (title descr categ : string) :
  Str.truthy (extract_audio_language title descr categ) = true.
Proof.
  unfold extract_audio_language.
  repeat match goal with
         | |- context [if ?b then _ else _] => destruct b
         end; reflexivity.
Qed.

Lemma subtitle_filled (title descr categ : string) :
  Str.truthy (extract_subtitle_language title descr categ) = true.
Proof.
  unfold extract_subtitle_language.
  repeat match goal with
         | |- context [if ?b then _ else _] => destruct b
         end; reflexivity.
Qed.

(** The six fields the grouping key is built from. *)
Definition key_fields_of (m : TorrentMetadata) : list string :=
  [release_group m; anime_name m; season m; audio_language m;
   subtitle_language m; quality m].

End FieldFacts.


(** X23. Every field the grouping key is built from is filled in, that is
    not empty, in the metadata built from a detail record and in the
    metadata built from a torrent's name when there is no detail record;
    the description kept from a detail record is its first 200 characters. *)
Theorem X23_metadata_fields_filled :
  (forall d,
     forallb Str.truthy
             (FieldFacts.key_fields_of (extract_metadata_from_detail d)) = true
     /\ description (extract_metadata_from_detail d)
        = Str.take 200 (dict_get d "description" "")
     /\ String.length (description (extract_metadata_from_detail d)) <= 200)
  /\ (forall t,
        forallb Str.truthy (FieldFacts.key_fields_of (fallback_metadata t))
        = true).
Proof.
  split.
  - intros d. unfold extract_metadata_from_detail, FieldFacts.key_fields_of.
    cbn [release_group anime_name season audio_language subtitle_language
         quality description forallb].
    rewrite FieldFacts.anime_name_filled, FieldFacts.season_filled,
      FieldFacts.audio_filled, FieldFacts.subtitle_filled,
      FieldFacts.quality_filled.
    assert (Hd : (if Str.truthy (dict_get d "description" "")
                  then Str.take 200 (dict_get d "description" "") else "")
                 = Str.take 200 (dict_get d "description" "")).
    { now destruct (dict_get d "description" ""). }
    rewrite Hd, SanitizeFacts.length_take. split; [|split; [reflexivity | lia]].
    destruct (Str.truthy (dict_get d "submitter" "Anonymous")) eqn:Es;
      cbn [andb].
    + destruct (negb _); [now rewrite Es |
                          now rewrite FieldFacts.release_group_filled].
    + now rewrite FieldFacts.release_group_filled.
  - intros t. unfold fallback_metadata, FieldFacts.key_fields_of.
    cbn [release_group anime_name season audio_language subtitle_language
         quality forallb].
    now rewrite FieldFacts.anime_name_filled, FieldFacts.season_filled,
      FieldFacts.quality_filled, FieldFacts.release_group_filled.
Qed.

(* ------------------------------------------------------------------ *)
(** ** metadata.py: the fallbacks of the two word parsers *)

Module FallbackFacts.
Import Re ReFacts PatternFacts.





End FallbackFacts.


